(** * Scoring of recorded locations: [get_all_points] of [backend/main.py]

    The endpoint [GET /points] reads every stored location in identity order,
    asks the spatial database for the distance of each interior point to the
    line from the first to the last point, and turns the interior distances
    into accuracies that share 100 among themselves (uniformly when all
    distances are zero, by inverse distance otherwise).

    Numbers.  Python [float] values are modelled by exact rationals [Q]:
    [1e-6] is [1 # 1000000], [100.0] is [100].  Statements about sums and
    ratios are therefore statements over exact arithmetic; equality of
    computed rationals is [Qeq] ([==]) unless the value is written literally
    by the code.  A rational is a finite number: the floats [Infinity] and
    [NaN] have no counterpart.  The module [Binary64] is the same function
    over IEEE 754 binary64 and shows where rounding and [Infinity] depart
    from the exact model.

    Effects.  The database session is read only here, so it is modelled by
    the two answers the function asks of it: the rows of the first [SELECT]
    and the answer of the [ST_Distance] query.  Python exceptions are the
    [Raise] results of a small error monad. *)

From Corelib Require Import PrimFloat.
From Stdlib Require Import String List Arith Bool ZArith QArith Qabs Lia Lqa.
Import ListNotations.

Open Scope Q_scope.

(** ** Exceptions and the error monad *)

Inductive exn : Type :=
| TypeError
| ZeroDivisionError
| IndexError
| ValueError.

Inductive result (A : Type) : Type :=
| Ok (a : A)
| Raise (e : exn).

Arguments Ok {A} a.
Arguments Raise {A} e.

Definition bind {A B : Type} (m : result A) (k : A -> result B) : result B :=
  match m with
  | Ok a => k a
  | Raise e => Raise e
  end.

Notation "x <- m ;; k" := (bind m (fun x => k))
  (at level 61, m at next level, right associativity).

(** ** The Python built-ins the function uses *)

Module Py.

(** A list comprehension whose element expression may raise: elements are
    evaluated left to right and the first exception ends the evaluation. *)
Fixpoint comprehension {A B : Type} (f : A -> result B) (l : list A)
  : result (list B) :=
  match l with
  | [] => Ok []
  | x :: t => y <- f x ;; ys <- comprehension f t ;; Ok (y :: ys)
  end.

(** [l[i]] for a non-negative index. *)
Definition getitem {A : Type} (l : list A) (i : nat) : result A :=
  match nth_error l i with
  | Some x => Ok x
  | None => Raise IndexError
  end.

(** [l[-1]]. *)
Definition getitem_last {A : Type} (l : list A) : result A :=
  match l with
  | [] => Raise IndexError
  | _ :: _ => getitem l (length l - 1)
  end.

(** [range(n)]. *)
Definition range (n : nat) : list nat := seq 0 n.

(** [enumerate(l)]. *)
Definition enumerate {A : Type} (l : list A) : list (nat * A) :=
  combine (seq 0 (length l)) l.

(** [i in l] on a list of integers. *)
Definition contains (i : nat) (l : list nat) : bool :=
  existsb (Nat.eqb i) l.

(** [l.index(i)]: the first position of [i], [ValueError] when absent. *)
Fixpoint index (l : list nat) (i : nat) : result nat :=
  match l with
  | [] => Raise ValueError
  | x :: t => if Nat.eqb x i then Ok 0%nat else k <- index t i ;; Ok (S k)
  end.

(** [x + y] on values that are a number or [None]. *)
Definition add (x y : option Q) : result Q :=
  match x, y with
  | Some a, Some b => Ok (a + b)
  | _, _ => Raise TypeError
  end.

(** The loop of [sum]: the accumulator is added to each item in turn. *)
Fixpoint sum_from (acc : Q) (l : list (option Q)) : result Q :=
  match l with
  | [] => Ok acc
  | x :: t => acc' <- add (Some acc) x ;; sum_from acc' t
  end.

(** [sum(l)]: starts from the integer [0]. *)
Definition sum (l : list (option Q)) : result Q := sum_from 0 l.

(** [a / b] on numbers. *)
Definition truediv (a b : Q) : result Q :=
  if Qeq_bool b 0 then Raise ZeroDivisionError else Ok (a / b).

End Py.

(** ** Data *)

(** A row of the first query: [id, username, timestamp, lng, lat]. *)
Record Row : Type := mkRow {
  row_id : Z;
  row_username : string;
  row_timestamp : Z;
  row_lng : Q;
  row_lat : Q
}.

(** The text [LINESTRING(lng1 lat1, lng2 lat2)], kept as its four numbers. *)
Record LineString : Type := mkLine {
  line_lng1 : Q;
  line_lat1 : Q;
  line_lng2 : Q;
  line_lat2 : Q
}.

(** What the function reads through [db]: [locations] is the result of
    [SELECT ... FROM locations ORDER BY id] fetched with [fetchall];
    [ST_Distance lng lat line] is [fetchone()] of the distance query, [None]
    for no row, [Some None] for a row holding SQL [NULL]. *)
Record Session : Type := mkSession {
  locations : list Row;
  ST_Distance : Q -> Q -> LineString -> option (option Q)
}.

(** An element of the returned list. *)
Record ScoredPoint : Type := mkPoint {
  id : Z;
  username : string;
  latitude : Q;
  longitude : Q;
  timestamp : Z;
  distance : option Q;
  accuracy : option Q;
  is_first : bool;
  is_last : bool
}.

(** ** The function *)

Definition epsilon : Q := 1 # 1000000.

Definition line_wkt (first last : Row) : LineString :=
  mkLine (row_lng first) (row_lat first) (row_lng last) (row_lat last).

(** [idx != 0 and idx != len(rows) - 1]. *)
Definition not_endpoint (n idx : nat) : bool :=
  negb (Nat.eqb idx 0) && negb (Nat.eqb idx (n - 1)).

(** [res[0] if res else None] for the distance query of one row. *)
Definition query_distance (db : Session) (line : LineString) (row : Row)
  : option Q :=
  match ST_Distance db (row_lng row) (row_lat row) line with
  | Some res => res
  | None => None
  end.

(** The body of the first loop for one row: the distance appended. *)
Definition point_distance (db : Session) (n : nat) (line : LineString)
  (idx : nat) (row : Row) : option Q :=
  if not_endpoint n idx then query_distance db line row else Some 0.

(** [1.0 / (d + 1e-6)], the element of [inverted] for the distance [d],
    divided exactly; [Binary64.invert] rounds as the program does. *)
Definition invert (d : option Q) : result Q :=
  s <- Py.add d (Some epsilon) ;; Py.truediv 1 s.

(** [v / total_inverted * 100.0], the element of [accs] for the weight [v]. *)
Definition share (total_inverted v : Q) : result Q :=
  q <- Py.truediv v total_inverted ;; Ok (q * 100).

(** The accuracies, lines 145 to 158. *)
Definition compute_accuracies (n : nat) (distances : list (option Q))
  : result (list (option Q)) :=
  let non_end_indices := filter (not_endpoint n) (Py.range n) in
  non_end_distances <- Py.comprehension (Py.getitem distances) non_end_indices ;;
  total_distance <- Py.sum non_end_distances ;;
  if Nat.eqb (length non_end_indices) 0 then
    Ok (repeat None n)
  else if Qeq_bool total_distance 0 then
    acc_val <- Py.truediv 100 (inject_Z (Z.of_nat (length non_end_indices))) ;;
    Ok (map (fun i => if Py.contains i non_end_indices then Some acc_val else None)
            (Py.range n))
  else
    inverted <- Py.comprehension invert non_end_distances ;;
    total_inverted <- Py.sum (map Some inverted) ;;
    accs <- Py.comprehension (share total_inverted) inverted ;;
    Py.comprehension
      (fun i => if Py.contains i non_end_indices
                then k <- Py.index non_end_indices i ;;
                     a <- Py.getitem accs k ;; Ok (Some a)
                else Ok None)
      (Py.range n).

(** The element returned for each row when fewer than two rows exist. *)
Definition lone_point (row : Row) : ScoredPoint :=
  mkPoint (row_id row) (row_username row) (row_lat row) (row_lng row)
          (row_timestamp row) None (Some 100) true true.

(** The body of the second loop: the element appended for one row. *)
Definition scored_point (n : nat) (distances accuracies : list (option Q))
  (item : nat * Row) : result ScoredPoint :=
  let '(idx, row) := item in
  dist <- Py.getitem distances idx ;;
  acc <- Py.getitem accuracies idx ;;
  Ok (mkPoint (row_id row) (row_username row) (row_lat row) (row_lng row)
              (row_timestamp row) dist acc
              (Nat.eqb idx 0) (Nat.eqb idx (n - 1))).

(** [get_all_points(db)], lines 100 to 173.  [len(rows) - 1] is only
    evaluated where [len(rows) >= 2], so the subtraction on [nat] is the
    integer one. *)
Definition get_all_points (db : Session) : result (list ScoredPoint) :=
  let rows := locations db in
  if Nat.ltb (length rows) 2 then
    Ok (map lone_point rows)
  else
    first <- Py.getitem rows 0 ;;
    last <- Py.getitem_last rows ;;
    let line := line_wkt first last in
    let n := length rows in
    let distances :=
      map (fun item => point_distance db n line (fst item) (snd item))
          (Py.enumerate rows) in
    accuracies <- compute_accuracies n distances ;;
    Py.comprehension (scored_point n distances accuracies) (Py.enumerate rows).

(** ** Reading a request and its answer *)

(** An endpoint of the answer, as the second loop builds it. *)
Definition endpoint (row : Row) (isfirst islast : bool) : ScoredPoint :=
  mkPoint (row_id row) (row_username row) (row_lat row) (row_lng row)
          (row_timestamp row) (Some 0) None isfirst islast.

(** A point strictly between the first and the last one. *)
Definition interior_point (row : Row) (d a : option Q) : ScoredPoint :=
  mkPoint (row_id row) (row_username row) (row_lat row) (row_lng row)
          (row_timestamp row) d a false false.

Fixpoint zip_interior (rows : list Row) (ds accs : list (option Q))
  : list ScoredPoint :=
  match rows, ds, accs with
  | row :: rows', d :: ds', a :: accs' =>
      interior_point row d a :: zip_interior rows' ds' accs'
  | _, _, _ => []
  end.

(** The elements of a list that are neither its first nor its last. *)
Definition interior {A : Type} (l : list A) : list A := removelast (tl l).

(** The last element of a list, when there is one. *)
Definition last_error {A : Type} (l : list A) : option A :=
  nth_error l (length l - 1).

(** The distances the database answers for the interior rows of a request. *)
Definition engine_distances (db : Session) : list (option Q) :=
  match locations db with
  | [] => []
  | first :: rest =>
      map (query_distance db (line_wkt first (last rest first)))
          (removelast rest)
  end.

Definition is_nonneg (d : option Q) : bool :=
  match d with
  | Some q => Qle_bool 0 q
  | None => false
  end.

(** The database answers every interior row with a number that is not
    negative. *)
Definition nonneg_distances (db : Session) : bool :=
  forallb is_nonneg (engine_distances db).

(** The mathematical sum of a list of rationals. *)
Definition Qsum (l : list Q) : Q := fold_right Qplus 0 l.

(** The weights of the inverse-distance branch. *)
Definition inverted_weights (ds : list Q) : list Q :=
  map (fun d => 1 / (d + epsilon)) ds.

(** The accuracies of the interior points, computed on the list of their
    distances instead of through indices. *)
Definition interior_accuracies (dm : list (option Q))
  : result (list (option Q)) :=
  total_distance <- Py.sum dm ;;
  if Nat.eqb (length dm) 0 then Ok []
  else if Qeq_bool total_distance 0 then
    acc_val <- Py.truediv 100 (inject_Z (Z.of_nat (length dm))) ;;
    Ok (repeat (Some acc_val) (length dm))
  else
    inverted <- Py.comprehension invert dm ;;
    total_inverted <- Py.sum (map Some inverted) ;;
    accs <- Py.comprehension (share total_inverted) inverted ;;
    Ok (map Some accs).

(** Python's [sum] on a list of numbers: the additions from left to right,
    starting from [0]. *)
Definition py_total (ds : list Q) : Q := fold_left Qplus ds 0.

(** The accuracy of the uniform branch. *)
Definition uniform_accuracy (ds : list Q) : Q :=
  100 / inject_Z (Z.of_nat (length ds)).

(** The accuracy of the inverse-distance branch for a point at distance [d]. *)
Definition weighted_accuracy (ds : list Q) (d : Q) : Q :=
  1 / (d + epsilon) / py_total (inverted_weights ds) * 100.

(** What an answer of the accuracy computation looks like. *)
Inductive Scored (ds : list Q) : list (option Q) -> Prop :=
| Scored_none :
    ds = [] -> Scored ds []
| Scored_uniform :
    ds <> [] -> py_total ds == 0 ->
    Scored ds (repeat (Some (uniform_accuracy ds)) (length ds))
| Scored_weighted :
    ds <> [] -> ~ py_total ds == 0 ->
    (forall d, In d ds -> ~ d + epsilon == 0) ->
    ~ py_total (inverted_weights ds) == 0 ->
    Scored ds (map (fun d => Some (weighted_accuracy ds d)) ds).

(** The row a returned point was built from. *)
Definition row_of (p : ScoredPoint) : Row :=
  mkRow (id p) (username p) (timestamp p) (longitude p) (latitude p).

(** ** Sample requests *)

(** A database that answers with the difference in latitude to the start of
    the line. *)
Definition latitude_gap (lng lat : Q) (line : LineString)
  : option (option Q) :=
  Some (Some (Qabs (lat - line_lat1 line))).

Definition sample_row (i : Z) (lng lat : Q) : Row :=
  mkRow i "user" 0 lng lat.

(** Four points, the two interior ones off the line by 5 and by 3. *)
Definition session_detour : Session :=
  mkSession [sample_row 1 0 0; sample_row 2 1 5; sample_row 3 2 3;
             sample_row 4 4 0]
            latitude_gap.

(** Four points on one line. *)
Definition session_straight : Session :=
  mkSession [sample_row 1 0 0; sample_row 2 1 0; sample_row 3 2 0;
             sample_row 4 3 0]
            latitude_gap.

(** Three points, the interior one off the line by 7. *)
Definition session_triangle : Session :=
  mkSession [sample_row 1 0 0; sample_row 2 1 7; sample_row 3 2 0]
            latitude_gap.

(** Three points and a database that answers SQL [NULL]. *)
Definition session_null : Session :=
  mkSession [sample_row 1 0 0; sample_row 2 1 7; sample_row 3 2 0]
            (fun _ _ _ => Some None).

(** Three points and an answer no distance can be: the opposite of
    [epsilon]. *)
Definition session_negative : Session :=
  mkSession [sample_row 1 0 0; sample_row 2 1 7; sample_row 3 2 0]
            (fun _ _ _ => Some (Some (- epsilon))).

(** Two points. *)
Definition session_pair : Session :=
  mkSession [sample_row 1 0 0; sample_row 2 1 1] latitude_gap.

(** The database right after [init_db]: one point. *)
Definition session_single : Session :=
  mkSession [mkRow 1 "init" 0 (1005018 # 10000) (137563 # 10000)]
            latitude_gap.

(** Four points, the two interior ones off the line by 2 each. *)
Definition session_parallel : Session :=
  mkSession [sample_row 1 0 0; sample_row 2 1 2; sample_row 3 2 2;
             sample_row 4 3 0]
            latitude_gap.

(** The points of [session_detour] and a database that answers [NULL] on
    the latitude of the two endpoints. *)
Definition session_detour_blind : Session :=
  mkSession (locations session_detour)
            (fun lng lat line =>
               if Qeq_bool lat 0 then Some None else latitude_gap lng lat line).

(** ** The table of locations and the functions that write and read it *)

(** A value of the column [point]: the text [POINT(x y)] read with SRID
    4326; [ST_X] and [ST_Y] are the SQL functions of these names. *)
Record Geography : Type := POINT {
  ST_X : Q;
  ST_Y : Q
}.

(** A row of the table [locations], class [Location]. *)
Record Location : Type := mkLocation {
  loc_id : Z;
  loc_username : string;
  loc_point : option Geography;
  loc_timestamp : Z
}.

(** The database: the rows of [locations] in the order of their insertion,
    and the next value of the sequence behind the primary key [id]. *)
Record Database : Type := mkDatabase {
  table : list Location;
  id_seq : Z
}.

(** The request body [LocationCreate]. *)
Record LocationCreate : Type := mkLocationCreate {
  lc_username : string;
  lc_latitude : Q;
  lc_longitude : Q
}.

(** The answer of [add_location]. *)
Record Created : Type := mkCreated {
  created_id : Z;
  created_username : string;
  created_latitude : Q;
  created_longitude : Q;
  created_timestamp : Z
}.

(** An element of the answer of [get_nearby_users]. *)
Record Nearby : Type := mkNearby {
  nearby_id : Z;
  nearby_username : string;
  nearby_timestamp : Z
}.

(** [db.add(loc); db.commit()] for [loc = Location(username, point)], then
    [loc] as [db.refresh(loc)] reads it back: the row gets the next value of
    the sequence as [id] and the column default [datetime.utcnow], the time
    [now] of the insert, as [timestamp].  The point is kept as written,
    which is what a geography column does for coordinates in its range
    ([in_range] below); the program checks no range, and what the database
    makes of coordinates outside it is not modelled. *)
Definition add_commit (now : Z) (name : string) (point : option Geography)
  (st : Database) : Database * Location :=
  let loc := mkLocation (id_seq st) name point now in
  (mkDatabase (table st ++ [loc]) (id_seq st + 1), loc).

Definition init_lat : Q := 137563 # 10000.
Definition init_lng : Q := 1005018 # 10000.

(** [init_db()], lines 47 to 56: every row is deleted (the sequence keeps
    its value), then the row of the user [init] is added. *)
Definition init_db (now : Z) (st : Database) : Database :=
  let emptied := mkDatabase [] (id_seq st) in
  let point_wkt := POINT init_lng init_lat in
  fst (add_commit now "init" (Some point_wkt) emptied).

(** [add_location(data, db)], lines 67 to 80. *)
Definition add_location (data : LocationCreate) (now : Z) (st : Database)
  : Database * Created :=
  let point_wkt := POINT (lc_longitude data) (lc_latitude data) in
  let '(st', loc) := add_commit now (lc_username data) (Some point_wkt) st in
  (st', mkCreated (loc_id loc) (lc_username data) (lc_latitude data)
                  (lc_longitude data) (loc_timestamp loc)).

(** [Location.point != None]. *)
Definition point_is_not_none (loc : Location) : bool :=
  match loc_point loc with
  | Some _ => true
  | None => false
  end.

(** [ST_DWithin(Location.point, point_wkt, radius)] as a condition of
    [filter]: a row whose point is [NULL] is not kept. *)
Definition within_radius (ST_DWithin : Geography -> Geography -> Q -> bool)
  (point_wkt : Geography) (radius : Q) (loc : Location) : bool :=
  match loc_point loc with
  | Some g => ST_DWithin g point_wkt radius
  | None => false
  end.

(** [get_nearby_users(latitude, longitude, radius, db)], lines 82 to 97.
    The geography predicate is the database's.  The query has no
    [ORDER BY], so the order of the answer is the database's choice: the
    list here is in the order of the table, and what is stated of this
    function speaks of the entries found, not of their order. *)
Definition get_nearby_users (ST_DWithin : Geography -> Geography -> Q -> bool)
  (latitude longitude radius : Q) (st : Database) : list Nearby :=
  let point_wkt := POINT longitude latitude in
  let results :=
    filter (fun loc => point_is_not_none loc
                       && within_radius ST_DWithin point_wkt radius loc)
           (table st) in
  map (fun loc => mkNearby (loc_id loc) (loc_username loc) (loc_timestamp loc))
      results.

(** [ORDER BY id]. *)
Fixpoint insert_by_id (loc : Location) (l : list Location) : list Location :=
  match l with
  | [] => [loc]
  | x :: t => if (loc_id loc <? loc_id x)%Z then loc :: x :: t
              else x :: insert_by_id loc t
  end.

Definition order_by_id (l : list Location) : list Location :=
  fold_right insert_by_id [] l.

(** One row of [SELECT id, username, timestamp, ST_X(point::geometry) AS lng,
    ST_Y(point::geometry) AS lat].  A [NULL] point has no coordinates to
    put in a [Row]. *)
Definition select_row (loc : Location) : option Row :=
  match loc_point loc with
  | Some g => Some (mkRow (loc_id loc) (loc_username loc) (loc_timestamp loc)
                          (ST_X g) (ST_Y g))
  | None => None
  end.

Fixpoint select_rows (l : list Location) : option (list Row) :=
  match l with
  | [] => Some []
  | loc :: t =>
      match select_row loc, select_rows t with
      | Some row, Some rows => Some (row :: rows)
      | _, _ => None
      end
  end.

(** [db.execute(sql).fetchall()] of [get_all_points] on a database. *)
Definition fetchall (st : Database) : option (list Row) :=
  select_rows (order_by_id (table st)).

(** [get_all_points] on the session that reads the database [st] and asks
    [engine] for the distances. *)
Definition serve_points
  (engine : Q -> Q -> LineString -> option (option Q)) (st : Database)
  : option (result (list ScoredPoint)) :=
  match fetchall st with
  | Some rows => Some (get_all_points (mkSession rows engine))
  | None => None
  end.

(** The databases the program produces: [init_db] runs when the module is
    loaded, on whatever the database holds, and after it only
    [add_location] writes. *)
Inductive reachable : Database -> Prop :=
| reachable_init (now : Z) (st : Database) :
    reachable (init_db now st)
| reachable_add (data : LocationCreate) (now : Z) (st : Database) :
    reachable st -> reachable (fst (add_location data now st)).

Fixpoint increasing (l : list Z) : bool :=
  match l with
  | [] => true
  | x :: t => forallb (Z.ltb x) t && increasing t
  end.

(** Every row has a point and an [id] below the sequence, and the [id]s
    grow along the table. *)
Definition well_formed (st : Database) : bool :=
  forallb (fun loc => point_is_not_none loc && (loc_id loc <? id_seq st)%Z)
          (table st)
  && increasing (map loc_id (table st)).

(** A predicate of the plane that stands for the database's [ST_DWithin]
    in examples. *)
Definition planar_within (g h : Geography) (radius : Q) : bool :=
  Qle_bool (Qabs (ST_X g - ST_X h) + Qabs (ST_Y g - ST_Y h)) radius.

(** A database that held rows of an earlier run, and a request body. *)
Definition database_stale : Database :=
  mkDatabase [mkLocation 3 "old" None 5; mkLocation 1 "older" None 2] 7.

Definition database_started : Database := init_db 10 database_stale.

Definition body_pin : LocationCreate :=
  mkLocationCreate "ann" (1375 # 100) (10055 # 100).

(** ** The function in binary64

    The definitions above compute with exact rationals.  This module is the
    same function with the arithmetic of the program: IEEE 754 binary64,
    rounding to nearest, as Python's [float].  It shows where rounding
    departs from exact arithmetic. *)

Module Binary64.

(** [x + y] on values that are a float or [None]. *)
Definition add (x y : option float) : result float :=
  match x, y with
  | Some a, Some b => Ok (PrimFloat.add a b)
  | _, _ => Raise TypeError
  end.

(** [sum(l)] as the additions from left to right, starting from 0 (CPython
    from 3.12 on also carries a compensation term; on the lists of one or
    two items used below both give the same float). *)
Fixpoint sum_from (acc : float) (l : list (option float)) : result float :=
  match l with
  | [] => Ok acc
  | x :: t => acc' <- add (Some acc) x ;; sum_from acc' t
  end.

Definition sum (l : list (option float)) : result float :=
  sum_from PrimFloat.zero l.

(** [a / b]: [ZeroDivisionError] when [b == 0], also for [-0.0]. *)
Definition truediv (a b : float) : result float :=
  if PrimFloat.eqb b PrimFloat.zero then Raise ZeroDivisionError
  else Ok (PrimFloat.div a b).

(** [float(n)] for the length of a list, exact below [2 ^ 53]. *)
Fixpoint of_nat (n : nat) : float :=
  match n with
  | O => PrimFloat.zero
  | S k => PrimFloat.add (of_nat k) PrimFloat.one
  end.

Record Row : Type := mkRow {
  row_id : Z;
  row_username : string;
  row_timestamp : Z;
  row_lng : float;
  row_lat : float
}.

Record LineString : Type := mkLine {
  line_lng1 : float;
  line_lat1 : float;
  line_lng2 : float;
  line_lat2 : float
}.

Record Session : Type := mkSession {
  locations : list Row;
  ST_Distance : float -> float -> LineString -> option (option float)
}.

Record ScoredPoint : Type := mkPoint {
  id : Z;
  username : string;
  latitude : float;
  longitude : float;
  timestamp : Z;
  distance : option float;
  accuracy : option float;
  is_first : bool;
  is_last : bool
}.

(** The binary64 value of the literal [1e-6]. *)
Definition epsilon : float := 0x1.0c6f7a0b5ed8dp-20%float.

(** The literal [100.0]. *)
Definition hundred : float := 100%float.

Definition line_wkt (first last : Row) : LineString :=
  mkLine (row_lng first) (row_lat first) (row_lng last) (row_lat last).

Definition query_distance (db : Session) (line : LineString) (row : Row)
  : option float :=
  match ST_Distance db (row_lng row) (row_lat row) line with
  | Some res => res
  | None => None
  end.

Definition point_distance (db : Session) (n : nat) (line : LineString)
  (idx : nat) (row : Row) : option float :=
  if not_endpoint n idx then query_distance db line row
  else Some PrimFloat.zero.

(** [1.0 / (d + 1e-6)]. *)
Definition invert (d : option float) : result float :=
  s <- add d (Some epsilon) ;; truediv PrimFloat.one s.

(** [v / total_inverted * 100.0]. *)
Definition share (total_inverted v : float) : result float :=
  q <- truediv v total_inverted ;; Ok (PrimFloat.mul q hundred).

Definition compute_accuracies (n : nat) (distances : list (option float))
  : result (list (option float)) :=
  let non_end_indices := filter (not_endpoint n) (Py.range n) in
  non_end_distances <- Py.comprehension (Py.getitem distances) non_end_indices ;;
  total_distance <- sum non_end_distances ;;
  if Nat.eqb (length non_end_indices) 0 then
    Ok (repeat None n)
  else if PrimFloat.eqb total_distance PrimFloat.zero then
    acc_val <- truediv hundred (of_nat (length non_end_indices)) ;;
    Ok (map (fun i => if Py.contains i non_end_indices then Some acc_val else None)
            (Py.range n))
  else
    inverted <- Py.comprehension invert non_end_distances ;;
    total_inverted <- sum (map Some inverted) ;;
    accs <- Py.comprehension (share total_inverted) inverted ;;
    Py.comprehension
      (fun i => if Py.contains i non_end_indices
                then k <- Py.index non_end_indices i ;;
                     a <- Py.getitem accs k ;; Ok (Some a)
                else Ok None)
      (Py.range n).

Definition lone_point (row : Row) : ScoredPoint :=
  mkPoint (row_id row) (row_username row) (row_lat row) (row_lng row)
          (row_timestamp row) None (Some hundred) true true.

Definition scored_point (n : nat) (distances accuracies : list (option float))
  (item : nat * Row) : result ScoredPoint :=
  let '(idx, row) := item in
  dist <- Py.getitem distances idx ;;
  acc <- Py.getitem accuracies idx ;;
  Ok (mkPoint (row_id row) (row_username row) (row_lat row) (row_lng row)
              (row_timestamp row) dist acc
              (Nat.eqb idx 0) (Nat.eqb idx (n - 1))).

Definition get_all_points (db : Session) : result (list ScoredPoint) :=
  let rows := locations db in
  if Nat.ltb (length rows) 2 then
    Ok (map lone_point rows)
  else
    first <- Py.getitem rows 0 ;;
    last <- Py.getitem_last rows ;;
    let line := line_wkt first last in
    let n := length rows in
    let distances :=
      map (fun item => point_distance db n line (fst item) (snd item))
          (Py.enumerate rows) in
    accuracies <- compute_accuracies n distances ;;
    Py.comprehension (scored_point n distances accuracies) (Py.enumerate rows).


Definition sample_row (i : Z) (lng lat : float) : Row :=
  mkRow i "user" 0 lng lat.


(** Three points; the database answers [Infinity] for the second. *)
Definition session_infinite : Session :=
  mkSession [sample_row 1 0 0; sample_row 2 1 1; sample_row 3 2 0]
            (fun lng lat line => Some (Some PrimFloat.infinity)).

End Binary64.

(** ** The request and the database, read without the function

    The statements about distances below name the rows and the answers of
    [ST_Distance] themselves. *)

(** The line from the first row to the last, longitude before latitude. *)
Definition reference_line (rows : list Row) : option LineString :=
  match rows, rev rows with
  | first :: _, last :: _ =>
      Some (mkLine (row_lng first) (row_lat first)
                   (row_lng last) (row_lat last))
  | _, _ => None
  end.

(** The distance the database answers for a row, null when it answers no
    row or [NULL]. *)
Definition answer_for (db : Session) (line : LineString) (row : Row)
  : option Q :=
  match ST_Distance db (row_lng row) (row_lat row) line with
  | Some (Some d) => Some d
  | Some None => None
  | None => None
  end.

(** The answers for the rows strictly between the first and the last. *)
Definition interior_answers (db : Session) : list (option Q) :=
  match reference_line (locations db) with
  | Some line => map (answer_for db line) (interior (locations db))
  | None => []
  end.

(** [i] is the index of neither the first nor the last of [n] rows. *)
Definition interior_index (n i : nat) : Prop := (0 < i < n - 1)%nat.

(** Coordinates a geography column stores as they are posted. *)
Definition in_range (latitude longitude : Q) : bool :=
  Qle_bool (-90) latitude && Qle_bool latitude 90
  && Qle_bool (-180) longitude && Qle_bool longitude 180.

(** Five points with distinct coordinates and a database whose answer
    depends on the point and on both ends of the line. *)
Definition spread (lng lat : Q) (line : LineString) : option (option Q) :=
  Some (Some (Qabs (lat - line_lat1 line) + Qabs (lng - line_lng2 line)
              + Qabs (line_lng1 line) + Qabs (line_lat2 line))).

Definition session_spread : Session :=
  mkSession [sample_row 1 1 2; sample_row 2 3 5; sample_row 3 4 9;
             sample_row 4 6 7; sample_row 5 8 3]
            spread.

(** ** Lists, comprehensions and indices *)

Section Comprehension.
Context {A B : Type}.

Lemma comprehension_map (f : A -> result B) (g : A -> B) (l : list A) :
  (forall x, In x l -> f x = Ok (g x)) ->
  Py.comprehension f l = Ok (map g l).
Proof.
  induction l as [|x t IH]; intros H; simpl.
  - reflexivity.
  - rewrite (H x (or_introl eq_refl)). simpl.
    rewrite IH by (intros y Hy; apply H; now right). reflexivity.
Qed.

Lemma comprehension_app (f : A -> result B) (l1 l2 : list A) :
  Py.comprehension f (l1 ++ l2) =
  (xs <- Py.comprehension f l1 ;; ys <- Py.comprehension f l2 ;; Ok (xs ++ ys)).
Proof.
  induction l1 as [|x t IH]; simpl.
  - destruct (Py.comprehension f l2); reflexivity.
  - destruct (f x) as [y|e]; simpl; [|reflexivity].
    rewrite IH. destruct (Py.comprehension f t) as [ys|e]; simpl; [|reflexivity].
    destruct (Py.comprehension f l2); reflexivity.
Qed.

Lemma comprehension_inv (f : A -> result B) (l : list A) (l' : list B) :
  Py.comprehension f l = Ok l' -> Forall2 (fun x y => f x = Ok y) l l'.
Proof.
  revert l'. induction l as [|x t IH]; simpl; intros l' H.
  - injection H as <-. constructor.
  - destruct (f x) as [y|e] eqn:Hx; simpl in H; [|discriminate].
    destruct (Py.comprehension f t) as [ys|e] eqn:Ht; simpl in H; [|discriminate].
    injection H as <-. constructor; auto.
Qed.

Lemma comprehension_ext (f g : A -> result B) (l : list A) :
  (forall x, In x l -> f x = g x) ->
  Py.comprehension f l = Py.comprehension g l.
Proof.
  induction l as [|x t IH]; intros H; simpl.
  - reflexivity.
  - rewrite (H x (or_introl eq_refl)).
    rewrite IH by (intros y Hy; apply H; now right). reflexivity.
Qed.
End Comprehension.

Lemma filter_all {A : Type} (p : A -> bool) (l : list A) :
  (forall x, In x l -> p x = true) -> filter p l = l.
Proof.
  induction l as [|x t IH]; intros H; simpl.
  - reflexivity.
  - rewrite (H x (or_introl eq_refl)). f_equal. apply IH. intros; apply H; now right.
Qed.

(** With at least two rows, the indices that are not endpoints are
    [1 .. n-2]. *)
Lemma non_end_indices_seq (m : nat) :
  filter (not_endpoint (S (S m))) (Py.range (S (S m))) = seq 1 m.
Proof.
  unfold Py.range.
  change (seq 0 (S (S m))) with (0%nat :: seq 1 (S m)).
  rewrite seq_S. simpl filter.
  rewrite filter_app, filter_all.
  - simpl. unfold not_endpoint.
    replace (Nat.eqb (S m) (S (S m) - 1)) with true
      by (symmetry; apply Nat.eqb_eq; lia).
    rewrite andb_false_r. apply app_nil_r.
  - intros i Hi. apply in_seq in Hi. unfold not_endpoint.
    apply andb_true_iff; split; apply negb_true_iff, Nat.eqb_neq; lia.
Qed.

(** Reading the positions [length pre .. length pre + length l - 1] of
    [pre ++ l ++ post] gives back [l]. *)
Lemma comprehension_getitem {A : Type} (l pre post : list A) :
  Py.comprehension (Py.getitem (pre ++ l ++ post)) (seq (length pre) (length l))
  = Ok l.
Proof.
  revert pre. induction l as [|x t IH]; intros pre; simpl.
  - reflexivity.
  - unfold Py.getitem at 1.
    rewrite nth_error_app2, Nat.sub_diag by lia. simpl.
    specialize (IH (pre ++ [x])).
    rewrite <- app_assoc, length_app in IH. simpl in IH.
    rewrite Nat.add_1_r in IH. rewrite IH. reflexivity.
Qed.

Lemma contains_seq (a m i : nat) :
  Py.contains i (seq a m) = (Nat.leb a i && Nat.ltb i (a + m))%bool.
Proof.
  unfold Py.contains.
  destruct (existsb (Nat.eqb i) (seq a m)) eqn:E.
  - apply existsb_exists in E as (x & Hx & Hi).
    apply Nat.eqb_eq in Hi; subst x. apply in_seq in Hx.
    symmetry. apply andb_true_iff; split;
      [apply Nat.leb_le | apply Nat.ltb_lt]; lia.
  - symmetry. apply not_true_is_false. intros H.
    apply andb_true_iff in H as [H1 H2].
    apply Nat.leb_le in H1. apply Nat.ltb_lt in H2.
    assert (existsb (Nat.eqb i) (seq a m) = true) as E'.
    { apply existsb_exists. exists i. split;
        [apply in_seq; lia | apply Nat.eqb_refl]. }
    congruence.
Qed.

Lemma index_seq (m a i : nat) :
  (a <= i < a + m)%nat -> Py.index (seq a m) i = Ok (i - a)%nat.
Proof.
  revert a. induction m as [|m IH]; intros a H; [lia|].
  simpl. destruct (Nat.eqb a i) eqn:E.
  - apply Nat.eqb_eq in E; subst. now rewrite Nat.sub_diag.
  - apply Nat.eqb_neq in E. rewrite IH by lia. simpl.
    f_equal. lia.
Qed.

Lemma comprehension_length {A B : Type} (f : A -> result B) l l' :
  Py.comprehension f l = Ok l' -> length l' = length l.
Proof.
  intros H. apply comprehension_inv in H.
  symmetry. eapply Forall2_length; eauto.
Qed.

(** Reading [accs] through positions shifted by [a]. *)
Lemma comprehension_lookup (accs pre : list Q) (a : nat) :
  Py.comprehension
    (fun i => x <- Py.getitem (pre ++ accs) (i - a) ;; Ok (Some x))
    (seq (a + length pre) (length accs))
  = Ok (map Some accs).
Proof.
  revert pre. induction accs as [|x t IH]; intros pre; simpl.
  - reflexivity.
  - unfold Py.getitem at 1.
    replace (a + length pre - a)%nat with (length pre) by lia.
    rewrite nth_error_app2, Nat.sub_diag by lia. simpl.
    specialize (IH (pre ++ [x])).
    rewrite <- app_assoc, length_app in IH. simpl in IH.
    replace (a + (length pre + 1))%nat with (S (a + length pre)) in IH by lia.
    rewrite IH. reflexivity.
Qed.

Lemma range_split (m : nat) :
  Py.range (S (S m)) = 0%nat :: seq 1 m ++ [S m].
Proof.
  unfold Py.range. change (seq 0 (S (S m))) with (0%nat :: seq 1 (S m)).
  now rewrite seq_S.
Qed.

(** The uniform branch writes the same value at every interior index. *)
Lemma spread_uniform (m : nat) (v : Q) :
  map (fun i => if Py.contains i (seq 1 m) then Some v else None)
      (Py.range (S (S m)))
  = None :: repeat (Some v) m ++ [None].
Proof.
  rewrite range_split. simpl map. rewrite map_app. simpl map.
  rewrite !contains_seq.
  replace (Nat.ltb (S m) (1 + m)) with false
    by (symmetry; apply Nat.ltb_ge; lia).
  rewrite andb_false_r. simpl. do 2 f_equal.
  rewrite (map_ext_in _ (fun _ => Some v)).
  - now rewrite map_const, length_seq.
  - intros i Hi. apply in_seq in Hi. rewrite contains_seq.
    replace (Nat.leb 1 i) with true by (symmetry; apply Nat.leb_le; lia).
    replace (Nat.ltb i (1 + m)) with true by (symmetry; apply Nat.ltb_lt; lia).
    reflexivity.
Qed.

(** The weighted branch writes [accs] at the interior indices, in order. *)
Lemma spread_weighted (accs : list Q) :
  let nei := seq 1 (length accs) in
  Py.comprehension
    (fun i => if Py.contains i nei
              then k <- Py.index nei i ;; a <- Py.getitem accs k ;; Ok (Some a)
              else Ok None)
    (Py.range (S (S (length accs))))
  = Ok (None :: map Some accs ++ [None]).
Proof.
  intros nei. subst nei. set (m := length accs).
  rewrite range_split.
  change (0%nat :: seq 1 m ++ [S m]) with ([0%nat] ++ seq 1 m ++ [S m]).
  rewrite !comprehension_app. simpl Py.comprehension at 1.
  rewrite (comprehension_ext _
             (fun i => x <- Py.getitem ([] ++ accs) (i - 1) ;; Ok (Some x))).
  - pose proof (comprehension_lookup accs [] 1) as H. simpl length in H.
    rewrite Nat.add_0_r in H. fold m in H. rewrite H. simpl.
    rewrite !contains_seq.
    replace (Nat.ltb (S m) (1 + m)) with false
      by (symmetry; apply Nat.ltb_ge; lia).
    rewrite andb_false_r. reflexivity.
  - intros i Hi. apply in_seq in Hi. rewrite contains_seq.
    replace (Nat.leb 1 i) with true by (symmetry; apply Nat.leb_le; lia).
    replace (Nat.ltb i (1 + m)) with true by (symmetry; apply Nat.ltb_lt; lia).
    simpl. rewrite index_seq by lia. reflexivity.
Qed.

(** ** The accuracies through indices are the accuracies of the interior *)

Lemma compute_accuracies_interior (dm : list (option Q)) :
  compute_accuracies (S (S (length dm))) (Some 0 :: dm ++ [Some 0])
  = (am <- interior_accuracies dm ;; Ok (None :: am ++ [None])).
Proof.
  unfold compute_accuracies, interior_accuracies.
  rewrite non_end_indices_seq.
  pose proof (comprehension_getitem dm [Some 0] [Some 0]) as H.
  simpl in H. rewrite H. clear H. cbn [bind].
  rewrite length_seq.
  destruct (Py.sum dm) as [total|e]; cbn [bind]; [|reflexivity].
  destruct (Nat.eqb (length dm) 0) eqn:E.
  - apply Nat.eqb_eq in E. rewrite E.
    apply length_zero_iff_nil in E. subst dm. reflexivity.
  - destruct (Qeq_bool total 0).
    + destruct (Py.truediv 100 (inject_Z (Z.of_nat (length dm)))) as [v|e];
        cbn [bind]; [|reflexivity].
      now rewrite spread_uniform.
    + destruct (Py.comprehension _ dm) as [inverted|e] eqn:Hinv;
        cbn [bind]; [|reflexivity].
      destruct (Py.sum (map Some inverted)) as [ti|e]; cbn [bind]; [|reflexivity].
      destruct (Py.comprehension _ inverted) as [accs|e] eqn:Haccs;
        cbn [bind]; [|reflexivity].
      apply comprehension_length in Hinv, Haccs.
      rewrite <- Hinv, <- Haccs. apply spread_weighted.
Qed.

(** ** The two loops over the rows *)

Lemma combine_app_eq {A B : Type} (l1 l2 : list A) (k1 k2 : list B) :
  length l1 = length k1 ->
  combine (l1 ++ l2) (k1 ++ k2) = combine l1 k1 ++ combine l2 k2.
Proof.
  revert k1. induction l1 as [|x t IH]; intros [|y k1] H; simpl in *;
    try discriminate; [reflexivity|].
  f_equal. apply IH. now injection H.
Qed.

Lemma enumerate_split (r0 rl : Row) (mid : list Row) :
  Py.enumerate (r0 :: mid ++ [rl])
  = (0%nat, r0) :: combine (seq 1 (length mid)) mid ++ [(S (length mid), rl)].
Proof.
  unfold Py.enumerate.
  replace (length (r0 :: mid ++ [rl])) with (S (length mid + 1))
    by (simpl; now rewrite length_app).
  cbn [seq combine]. f_equal.
  rewrite seq_app, combine_app_eq by now rewrite length_seq.
  reflexivity.
Qed.

Lemma interior_distances (db : Session) (n : nat) (line : LineString)
  (mid : list Row) (a : nat) :
  (1 <= a)%nat -> (a + length mid <= n - 1)%nat ->
  map (fun item => point_distance db n line (fst item) (snd item))
      (combine (seq a (length mid)) mid)
  = map (query_distance db line) mid.
Proof.
  revert a. induction mid as [|row t IH]; intros a Ha Hn; simpl in *.
  - reflexivity.
  - f_equal.
    + unfold point_distance, not_endpoint.
      replace (Nat.eqb a 0) with false by (symmetry; apply Nat.eqb_neq; lia).
      replace (Nat.eqb a (n - 1)) with false
        by (symmetry; apply Nat.eqb_neq; lia).
      reflexivity.
    + apply IH; lia.
Qed.

Lemma all_distances (db : Session) (r0 rl : Row) (mid : list Row)
  (line : LineString) :
  map (fun item =>
         point_distance db (S (S (length mid))) line (fst item) (snd item))
      (Py.enumerate (r0 :: mid ++ [rl]))
  = Some 0 :: map (query_distance db line) mid ++ [Some 0].
Proof.
  rewrite enumerate_split. simpl map at 1. rewrite map_app.
  rewrite interior_distances by (simpl; lia).
  unfold point_distance at 1. simpl (not_endpoint _ 0).
  cbv iota. do 2 f_equal. simpl map. unfold point_distance, not_endpoint.
  replace (Nat.eqb (S (length mid)) (S (S (length mid)) - 1)) with true
    by (symmetry; apply Nat.eqb_eq; lia).
  now rewrite andb_false_r.
Qed.

Lemma getitem_after {A : Type} (x y : A) (l : list A) :
  Py.getitem (x :: l ++ [y]) (S (length l)) = Ok y.
Proof.
  unfold Py.getitem. cbn [nth_error].
  now rewrite nth_error_app2, Nat.sub_diag by lia.
Qed.

Lemma interior_loop (n : nat) (mid : list Row) :
  forall (dm am preD preA postD postA : list (option Q)),
    length dm = length mid -> length am = length mid ->
    length preA = length preD ->
    (1 <= length preD)%nat -> (length preD + length mid <= n - 1)%nat ->
    Py.comprehension
      (scored_point n (preD ++ dm ++ postD) (preA ++ am ++ postA))
      (combine (seq (length preD) (length mid)) mid)
    = Ok (zip_interior mid dm am).
Proof.
  induction mid as [|row t IH];
    intros dm am preD preA postD postA Hd Ha Hp H1 Hn.
  - reflexivity.
  - destruct dm as [|d dm]; [discriminate|].
    destruct am as [|a am]; [discriminate|].
    simpl in Hd, Ha, Hn. injection Hd as Hd. injection Ha as Ha.
    simpl length. simpl seq. simpl combine. cbn [Py.comprehension].
    unfold scored_point at 1. unfold Py.getitem.
    rewrite nth_error_app2, Nat.sub_diag by lia.
    cbn [nth_error app bind].
    rewrite <- Hp.
    rewrite nth_error_app2, Nat.sub_diag by lia. rewrite Hp.
    cbn [nth_error app bind].
    replace (Nat.eqb (length preD) 0) with false
      by (symmetry; apply Nat.eqb_neq; lia).
    replace (Nat.eqb (length preD) (n - 1)) with false
      by (symmetry; apply Nat.eqb_neq; lia).
    specialize (IH dm am (preD ++ [d]) (preA ++ [a]) postD postA Hd Ha).
    rewrite <- !app_assoc, !length_app in IH. cbn [length app] in IH.
    rewrite !Nat.add_1_r in IH.
    rewrite IH by lia. reflexivity.
Qed.

Lemma interior_accuracies_length (dm am : list (option Q)) :
  interior_accuracies dm = Ok am -> length am = length dm.
Proof.
  unfold interior_accuracies.
  destruct (Py.sum dm) as [total|e]; cbn [bind]; [|discriminate].
  destruct (Nat.eqb (length dm) 0) eqn:E.
  - apply Nat.eqb_eq in E. intros H. injection H as <-. now rewrite E.
  - destruct (Qeq_bool total 0).
    + destruct (Py.truediv _ _) as [v|e]; cbn [bind]; [|discriminate].
      intros H. injection H as <-. apply repeat_length.
    + destruct (Py.comprehension _ dm) as [inverted|e] eqn:Hinv;
        cbn [bind]; [|discriminate].
      destruct (Py.sum _) as [ti|e]; cbn [bind]; [|discriminate].
      destruct (Py.comprehension _ inverted) as [accs|e] eqn:Haccs;
        cbn [bind]; [|discriminate].
      intros H. injection H as <-. rewrite length_map.
      apply comprehension_length in Hinv, Haccs. congruence.
Qed.

(** The request with at least two rows, read as a list: both endpoints get
    distance [0] and no accuracy, the rows in between get the distance the
    database answers and the accuracy computed from these distances. *)
Lemma get_all_points_scored (db : Session) (r0 rl : Row) (mid : list Row) :
  locations db = r0 :: mid ++ [rl] ->
  let dm := map (query_distance db (line_wkt r0 rl)) mid in
  get_all_points db
  = (am <- interior_accuracies dm ;;
     Ok (endpoint r0 true false :: zip_interior mid dm am
           ++ [endpoint rl false true])).
Proof.
  intros Hrows dm. unfold get_all_points. rewrite Hrows.
  assert (length (r0 :: mid ++ [rl]) = S (S (length mid))) as Hlen
      by (simpl; rewrite length_app; simpl; lia).
  rewrite Hlen.
  replace (Nat.ltb (S (S (length mid))) 2) with false
    by (symmetry; apply Nat.ltb_ge; lia).
  assert (Py.getitem_last (r0 :: mid ++ [rl]) = Ok rl) as Hlast.
  { unfold Py.getitem_last, Py.getitem. rewrite Hlen.
    change (r0 :: mid ++ [rl]) with ((r0 :: mid) ++ [rl]).
    rewrite nth_error_app2 by (simpl; lia).
    replace (S (S (length mid)) - 1 - length (r0 :: mid))%nat with 0%nat
      by (simpl; lia).
    reflexivity. }
  rewrite Hlast. cbn [Py.getitem nth_error bind].
  rewrite all_distances. fold dm.
  assert (length dm = length mid) as Hdm by apply length_map.
  rewrite <- Hdm. rewrite compute_accuracies_interior.
  destruct (interior_accuracies dm) as [am|e] eqn:Ham; cbn [bind];
    [|reflexivity].
  apply interior_accuracies_length in Ham.
  rewrite enumerate_split.
  change ((0%nat, r0) :: combine (seq 1 (length mid)) mid
            ++ [(S (length mid), rl)])
    with ([(0%nat, r0)] ++ combine (seq 1 (length mid)) mid
            ++ [(S (length mid), rl)]).
  rewrite !comprehension_app.
  pose proof (interior_loop (S (S (length dm))) mid dm am
                [Some 0] [None] [Some 0] [None]) as Hloop.
  simpl length in Hloop. simpl app in Hloop.
  rewrite Hloop by (try congruence; try lia).
  cbn [Py.comprehension scored_point bind].
  assert (Py.getitem (Some 0 :: dm ++ [Some 0]) (S (length mid))
          = Ok (Some 0)) as HD
      by (rewrite <- Hdm; apply getitem_after).
  assert (Py.getitem (None :: am ++ [None]) (S (length mid))
          = Ok (@None Q)) as HA
      by (replace (length mid) with (length am) by lia; apply getitem_after).
  rewrite HD, HA.
  cbn [Py.getitem nth_error bind app].
  replace (Nat.eqb (S (length mid)) (S (S (length dm)) - 1)) with true
    by (symmetry; apply Nat.eqb_eq; lia).
  reflexivity.
Qed.

(** ** Sums *)

Lemma sum_from_numbers (ds : list Q) (acc : Q) :
  Py.sum_from acc (map Some ds) = Ok (fold_left Qplus ds acc).
Proof.
  revert acc. induction ds as [|d t IH]; intros acc; simpl.
  - reflexivity.
  - apply IH.
Qed.

Lemma sum_numbers (ds : list Q) : Py.sum (map Some ds) = Ok (py_total ds).
Proof. apply sum_from_numbers. Qed.

Lemma sum_from_none (l : list (option Q)) (acc : Q) :
  In None l -> Py.sum_from acc l = Raise TypeError.
Proof.
  revert acc. induction l as [|x t IH]; intros acc H; simpl in *.
  - contradiction.
  - destruct x as [v|]; simpl; [|reflexivity].
    destruct H as [H|H]; [discriminate|]. now apply IH.
Qed.

Lemma numbers_or_none (l : list (option Q)) :
  (exists ds, l = map Some ds) \/ In None l.
Proof.
  induction l as [|x t [[ds ->]|H]].
  - left. now exists [].
  - destruct x as [v|].
    + left. now exists (v :: ds).
    + right. now left.
  - right. now right.
Qed.

Lemma fold_left_Qplus (ds : list Q) (acc : Q) :
  fold_left Qplus ds acc == acc + Qsum ds.
Proof.
  revert acc. induction ds as [|d t IH]; intros acc; simpl.
  - ring.
  - rewrite IH. ring.
Qed.

Lemma py_total_Qsum (ds : list Q) : py_total ds == Qsum ds.
Proof. unfold py_total. rewrite fold_left_Qplus. ring. Qed.

Lemma Qsum_repeat (c : Q) (m : nat) :
  Qsum (repeat c m) == inject_Z (Z.of_nat m) * c.
Proof.
  induction m as [|m IH].
  - simpl. ring.
  - cbn [repeat Qsum fold_right]. fold (Qsum (repeat c m)). rewrite IH.
    rewrite Nat2Z.inj_succ. unfold Z.succ. rewrite inject_Z_plus. ring.
Qed.

Lemma Qsum_pos (l : list Q) :
  l <> [] -> (forall x, In x l -> 0 < x) -> 0 < Qsum l.
Proof.
  induction l as [|x t IH]; intros Hne Hpos; [congruence|].
  simpl. assert (0 < x) by (apply Hpos; now left).
  destruct t as [|y t'].
  - simpl. lra.
  - assert (0 < Qsum (y :: t')).
    { apply IH; [discriminate|]. intros z Hz. apply Hpos. now right. }
    lra.
Qed.

Lemma Qsum_member_le (l : list Q) (x : Q) :
  (forall y, In y l -> 0 < y) -> In x l -> x <= Qsum l.
Proof.
  induction l as [|y t IH]; intros Hpos Hin; [contradiction|].
  simpl. destruct Hin as [->|Hin].
  - destruct t as [|z t'].
    + simpl. lra.
    + assert (0 < Qsum (z :: t')).
      { apply Qsum_pos; [discriminate|]. intros w Hw. apply Hpos. now right. }
      lra.
  - assert (0 < y) by (apply Hpos; now left).
    assert (x <= Qsum t) by (apply IH; auto; intros w Hw; apply Hpos; now right).
    lra.
Qed.

Lemma Qsum_nonneg_zero (l : list Q) :
  (forall x, In x l -> 0 <= x) -> Qsum l == 0 ->
  forall x, In x l -> x == 0.
Proof.
  induction l as [|y t IH]; intros Hnn Hz x Hin; [contradiction|].
  simpl in Hz.
  assert (0 <= y) by (apply Hnn; now left).
  assert (0 <= Qsum t) as Ht.
  { clear -Hnn. induction t as [|z t IH]; simpl; [lra|].
    assert (0 <= z) by (apply Hnn; right; now left).
    assert (0 <= Qsum t) by (apply IH; intros w [->|Hw]; apply Hnn;
                              [now left | right; now right]).
    lra. }
  destruct Hin as [<-|Hin].
  - lra.
  - apply IH; auto.
    + intros w Hw. apply Hnn. now right.
    + lra.
Qed.

(** ** The three branches of the accuracy computation *)

Lemma truediv_ok (a b : Q) : ~ b == 0 -> Py.truediv a b = Ok (a / b).
Proof.
  intros H. unfold Py.truediv.
  destruct (Qeq_bool b 0) eqn:E; [|reflexivity].
  apply Qeq_bool_iff in E. contradiction.
Qed.

Lemma truediv_inv (a b q : Q) :
  Py.truediv a b = Ok q -> ~ b == 0 /\ q = a / b.
Proof.
  unfold Py.truediv. destruct (Qeq_bool b 0) eqn:E; [discriminate|].
  intros H. injection H as <-. split; [|reflexivity].
  now apply Qeq_bool_neq.
Qed.

Lemma inverted_ok (ds : list Q) :
  (forall d, In d ds -> ~ d + epsilon == 0) ->
  Py.comprehension invert (map Some ds) = Ok (inverted_weights ds).
Proof.
  induction ds as [|d t IH]; intros H; simpl.
  - reflexivity.
  - unfold invert at 1. cbn [Py.add bind].
    rewrite truediv_ok by (apply H; now left). cbn [bind].
    rewrite IH by (intros; apply H; now right). reflexivity.
Qed.

Lemma inverted_inv (ds inverted : list Q) :
  Py.comprehension invert (map Some ds) = Ok inverted ->
  (forall d, In d ds -> ~ d + epsilon == 0) /\ inverted = inverted_weights ds.
Proof.
  revert inverted. induction ds as [|d t IH]; intros inverted H; simpl in H.
  - injection H as <-. split; [intros ? []|reflexivity].
  - unfold invert at 1 in H. cbn [Py.add bind] in H.
    destruct (Py.truediv 1 (d + epsilon)) as [v|e] eqn:Hv;
      cbn [bind] in H; [|discriminate].
    destruct (Py.comprehension invert (map Some t)) as [vs|e] eqn:Hvs;
      cbn [bind] in H; [|discriminate].
    injection H as <-. apply truediv_inv in Hv as [Hnz ->].
    destruct (IH vs eq_refl) as [Ht ->]. split; [|reflexivity].
    intros x [<-|Hx]; auto.
Qed.

Lemma shares_ok (T : Q) (inverted : list Q) :
  ~ T == 0 ->
  Py.comprehension (share T) inverted
  = Ok (map (fun v => v / T * 100) inverted).
Proof.
  intros HT. apply comprehension_map. intros v _.
  unfold share. now rewrite truediv_ok.
Qed.

Lemma shares_inv (T : Q) (inverted accs : list Q) :
  Py.comprehension (share T) inverted = Ok accs -> inverted <> [] ->
  ~ T == 0.
Proof.
  destruct inverted as [|v t]; [congruence|]. simpl. intros H _.
  unfold share at 1 in H.
  destruct (Py.truediv v T) as [q|e] eqn:Hq; cbn [bind] in H; [|discriminate].
  now apply truediv_inv in Hq as [Hnz _].
Qed.

Lemma length_nonzero {A : Type} (l : list A) :
  l <> [] -> ~ inject_Z (Z.of_nat (length l)) == 0.
Proof.
  intros Hne H. destruct l as [|x t]; [congruence|].
  unfold Qeq in H. simpl in H. lia.
Qed.

Lemma interior_accuracies_inv (dm am : list (option Q)) :
  interior_accuracies dm = Ok am ->
  exists ds, dm = map Some ds /\ Scored ds am.
Proof.
  intros H. destruct (numbers_or_none dm) as [[ds ->]|Hnone].
  2:{ unfold interior_accuracies, Py.sum in H.
      rewrite sum_from_none in H by assumption. discriminate. }
  exists ds. split; [reflexivity|].
  unfold interior_accuracies in H. rewrite sum_numbers in H. cbn [bind] in H.
  rewrite length_map in H.
  destruct (Nat.eqb (length ds) 0) eqn:E.
  - apply Nat.eqb_eq, length_zero_iff_nil in E. injection H as <-.
    now constructor.
  - assert (ds <> []) as Hne.
    { intros ->. discriminate. }
    destruct (Qeq_bool (py_total ds) 0) eqn:Etot.
    + apply Qeq_bool_iff in Etot.
      rewrite truediv_ok in H by now apply length_nonzero.
      cbn [bind] in H. injection H as <-. now constructor.
    + apply Qeq_bool_neq in Etot.
      fold invert in H.
      destruct (Py.comprehension invert (map Some ds)) as [inverted|e] eqn:Hinv;
        cbn [bind] in H; [|discriminate].
      apply inverted_inv in Hinv as [Hdiv ->].
      rewrite sum_numbers in H. cbn [bind] in H.
      fold (share (py_total (inverted_weights ds))) in H.
      destruct (Py.comprehension _ (inverted_weights ds)) as [accs|e] eqn:Haccs;
        cbn [bind] in H; [|discriminate].
      assert (~ py_total (inverted_weights ds) == 0) as HT.
      { eapply shares_inv; eauto. destruct ds; [congruence|discriminate]. }
      rewrite shares_ok in Haccs by assumption.
      injection Haccs as <-. injection H as <-.
      unfold inverted_weights at 2. rewrite !map_map.
      now constructor.
Qed.

(** Distances that are not negative never make a division fail. *)
Lemma divisor_pos (d : Q) : 0 <= d -> 0 < d + epsilon.
Proof. intros H. unfold epsilon. lra. Qed.

Lemma weight_pos (d : Q) : 0 <= d -> 0 < 1 / (d + epsilon).
Proof.
  intros H. apply divisor_pos in H.
  unfold Qdiv. rewrite Qmult_1_l. now apply Qinv_lt_0_compat.
Qed.

Lemma weights_pos (ds : list Q) :
  (forall d, In d ds -> 0 <= d) ->
  forall v, In v (inverted_weights ds) -> 0 < v.
Proof.
  intros H v Hv. apply in_map_iff in Hv as (d & <- & Hd).
  apply weight_pos. auto.
Qed.

Lemma total_inverted_pos (ds : list Q) :
  ds <> [] -> (forall d, In d ds -> 0 <= d) ->
  0 < py_total (inverted_weights ds).
Proof.
  intros Hne H. rewrite py_total_Qsum. apply Qsum_pos.
  - destruct ds; [congruence|discriminate].
  - now apply weights_pos.
Qed.

Lemma nonneg_numbers (dm : list (option Q)) :
  forallb is_nonneg dm = true ->
  exists ds, dm = map Some ds /\ forall d, In d ds -> 0 <= d.
Proof.
  induction dm as [|x t IH]; simpl; intros H.
  - exists []. split; [reflexivity|intros ? []].
  - apply andb_true_iff in H as [Hx Ht].
    destruct x as [q|]; [|discriminate]. simpl in Hx.
    apply Qle_bool_iff in Hx.
    destruct (IH Ht) as (ds & -> & Hds).
    exists (q :: ds). split; [reflexivity|].
    intros d [<-|Hd]; auto.
Qed.

Lemma interior_accuracies_total (dm : list (option Q)) :
  forallb is_nonneg dm = true ->
  exists am, interior_accuracies dm = Ok am.
Proof.
  intros H. apply nonneg_numbers in H as (ds & -> & Hnn).
  unfold interior_accuracies. rewrite sum_numbers. cbn [bind].
  rewrite length_map.
  destruct (Nat.eqb (length ds) 0) eqn:E; [eauto|].
  assert (ds <> []) as Hne by (intros ->; discriminate).
  destruct (Qeq_bool (py_total ds) 0).
  - rewrite truediv_ok by now apply length_nonzero. cbn [bind]. eauto.
  - fold invert. rewrite inverted_ok.
    + cbn [bind]. rewrite sum_numbers. cbn [bind].
      fold (share (py_total (inverted_weights ds))).
      rewrite shares_ok; [cbn [bind]; eauto|].
      pose proof (total_inverted_pos ds Hne Hnn). lra.
    + intros d Hd. pose proof (divisor_pos d (Hnn d Hd)). lra.
Qed.

(** ** Requests with at least two rows *)

Lemma rows_split (rows : list Row) :
  (2 <= length rows)%nat ->
  exists r0 mid rl, rows = r0 :: mid ++ [rl].
Proof.
  intros H. destruct rows as [|r0 rest]; [simpl in H; lia|].
  destruct (exists_last (l := rest)) as (mid & rl & ->).
  - intros ->. simpl in H. lia.
  - now exists r0, mid, rl.
Qed.

Lemma engine_distances_split (db : Session) (r0 rl : Row) (mid : list Row) :
  locations db = r0 :: mid ++ [rl] ->
  engine_distances db = map (query_distance db (line_wkt r0 rl)) mid.
Proof.
  intros H. unfold engine_distances. rewrite H.
  now rewrite last_last, removelast_last.
Qed.

Lemma interior_split {A : Type} (x y : A) (l : list A) :
  interior (x :: l ++ [y]) = l.
Proof. unfold interior. simpl tl. apply removelast_last. Qed.

Lemma last_error_split {A : Type} (x y : A) (l : list A) :
  last_error (x :: l ++ [y]) = Some y.
Proof.
  unfold last_error. simpl length. rewrite length_app. simpl length.
  replace (S (length l + 1) - 1)%nat with (S (length l)) by lia.
  simpl. now rewrite nth_error_app2, Nat.sub_diag by lia.
Qed.


Lemma zip_interior_distance (mid : list Row) :
  forall dm am, length dm = length mid -> length am = length mid ->
  map distance (zip_interior mid dm am) = dm.
Proof.
  induction mid as [|row t IH]; intros [|d dm] [|a am] Hd Ha;
    simpl in *; try discriminate; [reflexivity|].
  f_equal. apply IH; congruence.
Qed.

Lemma Scored_length (ds : list Q) (am : list (option Q)) :
  Scored ds am -> length am = length ds.
Proof.
  intros [-> | _ _ | _ _ _ _].
  - reflexivity.
  - apply repeat_length.
  - apply length_map.
Qed.

(** Every answer to a request with at least two rows has this shape. *)
Lemma get_all_points_inv (db : Session) (r0 rl : Row) (mid : list Row)
  (res : list ScoredPoint) :
  locations db = r0 :: mid ++ [rl] ->
  get_all_points db = Ok res ->
  exists ds am,
    engine_distances db = map Some ds /\ length ds = length mid /\
    Scored ds am /\
    res = endpoint r0 true false :: zip_interior mid (map Some ds) am
            ++ [endpoint rl false true].
Proof.
  intros Hrows Hres.
  rewrite (get_all_points_scored db r0 rl mid Hrows) in Hres.
  rewrite <- (engine_distances_split db r0 rl mid Hrows) in Hres.
  destruct (interior_accuracies (engine_distances db)) as [am|e] eqn:Ham;
    cbn [bind] in Hres; [|discriminate].
  apply interior_accuracies_inv in Ham as (ds & Hds & Hsc).
  exists ds, am. rewrite Hds in Hres. injection Hres as <-.
  repeat split; auto.
  rewrite (engine_distances_split db r0 rl mid Hrows) in Hds.
  apply (f_equal (@length _)) in Hds. rewrite !length_map in Hds. auto.
Qed.

(** A database whose distances are numbers that are not negative always
    gets an answer. *)
Lemma get_all_points_total (db : Session) :
  nonneg_distances db = true -> exists res, get_all_points db = Ok res.
Proof.
  intros Hnn.
  destruct (le_lt_dec 2 (length (locations db))) as [Hlen|Hlen].
  - destruct (rows_split _ Hlen) as (r0 & mid & rl & Hrows).
    rewrite (get_all_points_scored db r0 rl mid Hrows).
    rewrite <- (engine_distances_split db r0 rl mid Hrows).
    destruct (interior_accuracies_total _ Hnn) as [am ->].
    cbn [bind]. eauto.
  - unfold get_all_points.
    replace (Nat.ltb (length (locations db)) 2) with true
      by (symmetry; apply Nat.ltb_lt; lia).
    eauto.
Qed.

Lemma Qsum_weighted (T : Q) (ds : list Q) :
  Qsum (map (fun d => 1 / (d + epsilon) / T * 100) ds)
  == Qsum (inverted_weights ds) / T * 100.
Proof.
  induction ds as [|d t IH]; simpl.
  - unfold Qdiv. ring.
  - rewrite IH. unfold Qdiv. ring.
Qed.

(** The accuracies of an answer with at least one interior point are all
    numbers, and they add up to 100. *)
Lemma Scored_sum (ds : list Q) (am : list (option Q)) :
  ds <> [] -> Scored ds am ->
  exists accs, am = map Some accs /\ Qsum accs == 100.
Proof.
  intros Hne [Hnil | _ Htot | _ Htot Hdiv HT]; [contradiction| |].
  - exists (repeat (uniform_accuracy ds) (length ds)). split.
    + now rewrite map_repeat.
    + rewrite Qsum_repeat. unfold uniform_accuracy.
      field. now apply length_nonzero.
  - exists (map (weighted_accuracy ds) ds). split.
    + now rewrite map_map.
    + unfold weighted_accuracy. rewrite Qsum_weighted.
      rewrite <- py_total_Qsum. field. assumption.
Qed.

Lemma interior_nonempty (rows : list Row) (r0 rl : Row) (mid : list Row) :
  rows = r0 :: mid ++ [rl] -> (3 <= length rows)%nat -> mid <> [].
Proof. intros -> H ->. simpl in H. lia. Qed.

(** ** The claims *)


(** *** Fewer than two rows *)

Lemma get_all_points_lone (db : Session) :
  (length (locations db) < 2)%nat ->
  get_all_points db = Ok (map lone_point (locations db)).
Proof.
  intros H. unfold get_all_points.
  now replace (Nat.ltb (length (locations db)) 2) with true
    by (symmetry; apply Nat.ltb_lt; lia).
Qed.

(** C3.  With fewer than two rows every returned point has no distance,
    accuracy 100, and both flags set, whatever its position; the answer has
    one point per row, so no row gives the empty list. *)
Theorem degenerate_branch (db : Session) :
  (length (locations db) < 2)%nat ->
  exists res,
    get_all_points db = Ok res /\
    length res = length (locations db) /\
    Forall (fun p => distance p = None /\ accuracy p = Some 100 /\
                     is_first p = true /\ is_last p = true) res /\
    (locations db = [] -> res = []).
Proof.
  intros H. exists (map lone_point (locations db)).
  split; [now apply get_all_points_lone|].
  split; [apply length_map|]. split.
  - apply Forall_forall. intros p Hp.
    apply in_map_iff in Hp as (row & <- & _). now repeat split.
  - now intros ->.
Qed.

(** C2, as the code has it.  With fewer than two rows the accuracy of every
    returned point is 100, not null; for a single row the one point returned
    has no distance and accuracy 100. *)
Theorem degenerate_accuracy (db : Session) :
  (length (locations db) < 2)%nat ->
  exists res,
    get_all_points db = Ok res /\
    Forall (fun p => accuracy p = Some 100) res /\
    (forall row, locations db = [row] ->
       exists p, res = [p] /\ distance p = None /\ accuracy p = Some 100).
Proof.
  intros H. exists (map lone_point (locations db)).
  split; [now apply get_all_points_lone|]. split.
  - apply Forall_forall. intros p Hp.
    now apply in_map_iff in Hp as (row & <- & _).
  - intros row ->. exists (lone_point row). now repeat split.
Qed.

(** *** Exactly two rows *)

(** C7.  With exactly two rows both returned points have distance 0 and no
    accuracy; the first carries [is_first] only and the second [is_last]
    only. *)
Theorem two_points (db : Session) :
  length (locations db) = 2%nat ->
  exists p q,
    get_all_points db = Ok [p; q] /\
    distance p = Some 0 /\ accuracy p = None /\
    distance q = Some 0 /\ accuracy q = None /\
    is_first p = true /\ is_last p = false /\
    is_first q = false /\ is_last q = true.
Proof.
  intros H.
  destruct (locations db) as [|r0 [|rl [|? ?]]] eqn:Hrows; try discriminate.
  exists (endpoint r0 true false), (endpoint rl false true).
  split; [|now repeat split].
  now rewrite (get_all_points_scored db r0 rl [] Hrows).
Qed.

(** *** Endpoints, order and flags *)

Lemma zip_interior_length (mid : list Row) :
  forall dm am, length dm = length mid -> length am = length mid ->
  length (zip_interior mid dm am) = length mid.
Proof.
  induction mid as [|row t IH]; intros [|d dm] [|a am] Hd Ha;
    simpl in *; try discriminate; [reflexivity|].
  f_equal. apply IH; congruence.
Qed.

Lemma zip_interior_rows (mid : list Row) :
  forall dm am, length dm = length mid -> length am = length mid ->
  map row_of (zip_interior mid dm am) = mid.
Proof.
  induction mid as [|row t IH]; intros [|d dm] [|a am] Hd Ha;
    simpl in *; try discriminate; [reflexivity|].
  f_equal; [now destruct row | apply IH; congruence].
Qed.

Lemma zip_interior_flags (mid : list Row) (p : ScoredPoint) :
  forall dm am, In p (zip_interior mid dm am) ->
  is_first p = false /\ is_last p = false.
Proof.
  induction mid as [|row t IH]; intros [|d dm] [|a am] H;
    simpl in H; try contradiction.
  destruct H as [<-|H]; [now split | eauto].
Qed.

Lemma filter_none {A : Type} (f : A -> bool) (l : list A) :
  (forall x, In x l -> f x = false) -> filter f l = [].
Proof.
  induction l as [|x t IH]; intros H; simpl.
  - reflexivity.
  - rewrite (H x (or_introl eq_refl)). apply IH. intros; apply H; now right.
Qed.

(** C8.  With at least two rows the answer lists the rows in their order,
    the point at index [i] has [is_first = (i == 0)] and
    [is_last = (i == len - 1)], and so exactly one point has [is_first] and
    exactly one has [is_last]; the request is answered whenever the
    database's distances are numbers that are not negative. *)
Theorem order_and_flags (db : Session) :
  (2 <= length (locations db))%nat ->
  (nonneg_distances db = true -> exists res, get_all_points db = Ok res) /\
  (forall res, get_all_points db = Ok res ->
     map row_of res = locations db /\
     (forall i p, nth_error res i = Some p ->
        is_first p = Nat.eqb i 0 /\
        is_last p = Nat.eqb i (length (locations db) - 1)) /\
     length (filter is_first res) = 1%nat /\
     length (filter is_last res) = 1%nat).
Proof.
  intros Hlen. split; [apply get_all_points_total|].
  intros res Hres.
  destruct (rows_split _ Hlen) as (r0 & mid & rl & Hrows).
  destruct (get_all_points_inv db r0 rl mid res Hrows Hres)
    as (ds & am & Hds & Hlds & Hsc & ->).
  assert (length (map Some ds) = length mid) as Hd by now rewrite length_map.
  assert (length am = length mid) as Ha
      by now rewrite (Scored_length ds am Hsc).
  set (zs := zip_interior mid (map Some ds) am).
  assert (length zs = length mid) as Hz by now apply zip_interior_length.
  assert (forall p, In p zs -> is_first p = false /\ is_last p = false) as Hf
      by (intros p; apply zip_interior_flags).
  rewrite Hrows. repeat split.
  - cbn [map]. rewrite map_app. unfold zs. rewrite zip_interior_rows by auto.
    cbn [map]. now destruct r0, rl.
  - destruct i as [|j]; simpl in H.
    + now injection H as <-.
    + destruct (Nat.lt_ge_cases j (length zs)) as [Hj|Hj].
      * rewrite nth_error_app1 in H by assumption.
        apply nth_error_In, Hf in H. now destruct H as [-> _].
      * rewrite nth_error_app2 in H by assumption.
        destruct (j - length zs)%nat as [|k] eqn:Ek; simpl in H.
        -- now injection H as <-.
        -- now destruct k.
  - simpl length. rewrite length_app. simpl length.
    replace (S (length mid + 1) - 1)%nat with (S (length mid)) by lia.
    destruct i as [|j]; simpl in H.
    + now injection H as <-.
    + destruct (Nat.lt_ge_cases j (length zs)) as [Hj|Hj].
      * rewrite nth_error_app1 in H by assumption.
        apply nth_error_In, Hf in H. destruct H as [_ ->].
        symmetry. apply Nat.eqb_neq. lia.
      * rewrite nth_error_app2 in H by assumption.
        destruct (j - length zs)%nat as [|k] eqn:Ek; simpl in H.
        -- injection H as <-. simpl. symmetry. apply Nat.eqb_eq. lia.
        -- now destruct k.
  - cbn [filter endpoint is_first]. rewrite filter_app.
    rewrite filter_none by (intros p Hp; now apply Hf). reflexivity.
  - cbn [filter endpoint is_last]. rewrite filter_app.
    rewrite filter_none by (intros p Hp; now apply Hf). reflexivity.
Qed.

(** *** The uniform branch *)

Lemma interior_accuracies_uniform (ds : list Q) :
  ds <> [] -> Qsum ds == 0 ->
  interior_accuracies (map Some ds)
  = Ok (repeat (Some (uniform_accuracy ds)) (length ds)).
Proof.
  intros Hne Hz. unfold interior_accuracies.
  rewrite sum_numbers. cbn [bind]. rewrite length_map.
  replace (Nat.eqb (length ds) 0) with false
    by (symmetry; apply Nat.eqb_neq; destruct ds; [congruence|discriminate]).
  replace (Qeq_bool (py_total ds) 0) with true
    by (symmetry; apply Qeq_bool_iff; now rewrite py_total_Qsum).
  now rewrite truediv_ok by now apply length_nonzero.
Qed.

(** *** Distances that are not negative *)

Lemma map_Some_inj {A : Type} (l l' : list A) :
  map Some l = map Some l' -> l = l'.
Proof.
  revert l'. induction l as [|x t IH]; intros [|y t'] H; simpl in H;
    try discriminate; [reflexivity|].
  injection H as -> H. f_equal. now apply IH.
Qed.

Lemma nonneg_distances_spec (db : Session) (ds : list Q) :
  nonneg_distances db = true -> engine_distances db = map Some ds ->
  forall d, In d ds -> 0 <= d.
Proof.
  intros Hnn Hds. apply nonneg_numbers in Hnn as (ds' & Hds' & H).
  rewrite Hds in Hds'. apply map_Some_inj in Hds'. now subst ds'.
Qed.

(** Each interior point carries its distance and the accuracy computed from
    it. *)
Lemma zip_interior_In (f : Q -> Q) (p : ScoredPoint) (mid : list Row) :
  forall ds, In p (zip_interior mid (map Some ds)
                                (map (fun d => Some (f d)) ds)) ->
  exists d, In d ds /\ distance p = Some d /\ accuracy p = Some (f d).
Proof.
  induction mid as [|row t IH]; intros [|d ds] H; simpl in H;
    try contradiction.
  destruct H as [<-|H].
  - exists d. repeat split. now left.
  - destruct (IH ds H) as (d' & Hd' & Hp). exists d'. split; [now right|auto].
Qed.

Lemma zip_interior_distance_In (p : ScoredPoint) (mid : list Row)
  (ds : list Q) (am : list (option Q)) (d : Q) :
  length ds = length mid -> length am = length mid ->
  In p (zip_interior mid (map Some ds) am) -> distance p = Some d ->
  In d ds.
Proof.
  intros Hd Ha Hp Hdist. apply (in_map distance) in Hp.
  rewrite zip_interior_distance in Hp by (auto; now rewrite length_map).
  rewrite Hdist in Hp. apply in_map_iff in Hp as (d' & Heq & Hin).
  now injection Heq as ->.
Qed.


Lemma weighted_accuracy_bounds (ds : list Q) (d : Q) :
  (forall x, In x ds -> 0 <= x) -> In d ds ->
  0 < weighted_accuracy ds d /\ weighted_accuracy ds d <= 100.
Proof.
  intros Hnn Hd. unfold weighted_accuracy.
  assert (ds <> []) as Hne by (intros ->; contradiction).
  pose proof (total_inverted_pos ds Hne Hnn) as HT.
  pose proof (weight_pos d (Hnn d Hd)) as Hv.
  assert (1 / (d + epsilon) <= py_total (inverted_weights ds)) as Hle.
  { rewrite py_total_Qsum. apply Qsum_member_le.
    - now apply weights_pos.
    - unfold inverted_weights.
      apply (in_map (fun d => 1 / (d + epsilon))). assumption. }
  set (v := 1 / (d + epsilon)) in *.
  set (T := py_total (inverted_weights ds)) in *.
  assert (0 < v / T) by (apply Qlt_shift_div_l; [assumption|lra]).
  assert (v / T <= 1) by (apply Qle_shift_div_r; [assumption|lra]).
  split; lra.
Qed.

Lemma interior_short {A : Type} (l : list A) :
  (length l < 2)%nat -> interior l = [].
Proof.
  destruct l as [|x [|y t]]; simpl; intros H; try reflexivity. lia.
Qed.

(** C9.  With at least one interior point and distances that are not
    negative the request is answered; when the total of the interior
    distances is strictly positive every interior accuracy is strictly
    greater than 0 and at most 100; and a single interior point has accuracy
    100 whatever its distance. *)
Theorem accuracy_bounds (db : Session) :
  (3 <= length (locations db))%nat ->
  nonneg_distances db = true ->
  exists res,
    get_all_points db = Ok res /\
    (forall ds, engine_distances db = map Some ds -> 0 < Qsum ds ->
       Forall (fun p => exists a, accuracy p = Some a /\ 0 < a /\ a <= 100)
              (interior res)) /\
    (length (locations db) = 3%nat ->
       exists p a, interior res = [p] /\ accuracy p = Some a /\ a == 100).
Proof.
  intros Hlen Hnn. destruct (get_all_points_total db Hnn) as [res Hres].
  exists res. split; [assumption|].
  destruct (rows_split (locations db)) as (r0 & mid & rl & Hrows); [lia|].
  destruct (get_all_points_inv db r0 rl mid res Hrows Hres)
    as (ds & am & Hds & Hlds & Hsc & ->).
  pose proof (nonneg_distances_spec db ds Hnn Hds) as Hpos.
  pose proof (Scored_length ds am Hsc) as Hlam.
  rewrite interior_split. split.
  - intros ds' Hds' Htot. rewrite Hds in Hds'.
    apply map_Some_inj in Hds'. subst ds'.
    destruct Hsc as [Hnil | Hne Hz | Hne Hnz Hdiv HT].
    + subst ds. simpl in Htot. lra.
    + rewrite py_total_Qsum in Hz. lra.
    + apply Forall_forall. intros p Hp.
      apply zip_interior_In in Hp as (d & Hd & _ & Ha).
      exists (weighted_accuracy ds d). split; [assumption|].
      now apply weighted_accuracy_bounds.
  - intros H3. rewrite Hrows in H3. simpl in H3. rewrite length_app in H3.
    simpl in H3.
    destruct mid as [|row [|? ?]]; simpl in H3; try lia.
    destruct ds as [|d [|? ?]]; try discriminate.
    destruct (Scored_sum [d] am) as (accs & -> & Hsum);
      [discriminate|assumption|].
    destruct accs as [|a [|? ?]]; try discriminate.
    exists (interior_point row (Some d) (Some a)), a.
    repeat split. simpl in Hsum. lra.
Qed.

(** C10.  When every interior distance is a number that is not negative,
    each divisor [d + 1e-6] is strictly positive, the sum of the inverted
    weights is strictly positive when there is an interior point, so neither
    division raises, and the request is answered. *)
Theorem no_division_by_zero (db : Session) :
  nonneg_distances db = true ->
  exists ds,
    engine_distances db = map Some ds /\
    (forall d, In d ds ->
       0 < d + epsilon /\
       Py.truediv 1 (d + epsilon) = Ok (1 / (d + epsilon))) /\
    (ds <> [] ->
       0 < py_total (inverted_weights ds) /\
       forall v, Py.truediv v (py_total (inverted_weights ds))
                 = Ok (v / py_total (inverted_weights ds))) /\
    exists res, get_all_points db = Ok res.
Proof.
  intros Hnn. destruct (nonneg_numbers _ Hnn) as (ds & Hds & Hpos).
  exists ds. split; [assumption|]. split; [|split].
  - intros d Hd. pose proof (divisor_pos d (Hpos d Hd)) as H.
    split; [assumption|]. apply truediv_ok. lra.
  - intros Hne. pose proof (total_inverted_pos ds Hne Hpos) as H.
    split; [assumption|]. intros v. apply truediv_ok. lra.
  - now apply get_all_points_total.
Qed.

(** ** The function on the sample requests *)

Example get_all_points_straight :
  get_all_points session_straight
  = Ok [endpoint (sample_row 1 0 0) true false;
        interior_point (sample_row 2 1 0) (Some 0) (Some (100 / 2));
        interior_point (sample_row 3 2 0) (Some 0) (Some (100 / 2));
        endpoint (sample_row 4 3 0) false true].
Proof. reflexivity. Qed.

Example get_all_points_detour :
  exists a5 a3,
    get_all_points session_detour
    = Ok [endpoint (sample_row 1 0 0) true false;
          interior_point (sample_row 2 1 5) (Some 5) (Some a5);
          interior_point (sample_row 3 2 3) (Some 3) (Some a3);
          endpoint (sample_row 4 4 0) false true] /\
    a5 == 300000100 # 8000002 /\ a3 == 500000100 # 8000002.
Proof. do 2 eexists. split; [reflexivity|]. split; reflexivity. Qed.

(** A [NULL] distance reaches [sum] and raises. *)
Example get_all_points_null :
  get_all_points session_null = Raise TypeError.
Proof. reflexivity. Qed.

(** Outside the domain of distances a division can fail. *)
Example get_all_points_negative :
  get_all_points session_negative = Raise ZeroDivisionError.
Proof. reflexivity. Qed.

(** ** The claims on the sample requests *)


(** The claim C2 fails on the database right after [init_db]: its single
    point is returned with accuracy 100, which is not null. *)
Lemma single_point_accuracy_not_null :
  (length (locations session_single) < 2)%nat /\
  exists p,
    get_all_points session_single = Ok [p] /\
    distance p = None /\ accuracy p = Some 100 /\ accuracy p <> None.
Proof.
  split; [simpl; lia|].
  exists (lone_point (mkRow 1 "init" 0 (1005018 # 10000) (137563 # 10000))).
  repeat split. discriminate.
Qed.

Lemma degenerate_accuracy_single :
  (length (locations session_single) < 2)%nat /\
  exists res,
    get_all_points session_single = Ok res /\
    Forall (fun p => accuracy p = Some 100) res /\
    (forall row, locations session_single = [row] ->
       exists p, res = [p] /\ distance p = None /\ accuracy p = Some 100).
Proof.
  assert (length (locations session_single) < 2)%nat as H by (simpl; lia).
  split; [exact H | exact (degenerate_accuracy session_single H)].
Defined.

Lemma degenerate_branch_single :
  (length (locations session_single) < 2)%nat /\
  exists res,
    get_all_points session_single = Ok res /\
    length res = length (locations session_single) /\
    Forall (fun p => distance p = None /\ accuracy p = Some 100 /\
                     is_first p = true /\ is_last p = true) res /\
    (locations session_single = [] -> res = []).
Proof.
  assert (length (locations session_single) < 2)%nat as H by (simpl; lia).
  split; [exact H | exact (degenerate_branch session_single H)].
Defined.

Lemma two_points_pair :
  length (locations session_pair) = 2%nat /\
  exists p q,
    get_all_points session_pair = Ok [p; q] /\
    distance p = Some 0 /\ accuracy p = None /\
    distance q = Some 0 /\ accuracy q = None /\
    is_first p = true /\ is_last p = false /\
    is_first q = false /\ is_last q = true.
Proof.
  split; [reflexivity | exact (two_points session_pair eq_refl)].
Defined.

Lemma order_and_flags_detour :
  (2 <= length (locations session_detour))%nat /\
  exists res,
    get_all_points session_detour = Ok res /\
    map row_of res = locations session_detour /\
    (forall i p, nth_error res i = Some p ->
       is_first p = Nat.eqb i 0 /\
       is_last p = Nat.eqb i (length (locations session_detour) - 1)) /\
    length (filter is_first res) = 1%nat /\
    length (filter is_last res) = 1%nat.
Proof.
  assert (2 <= length (locations session_detour))%nat as H by (simpl; lia).
  split; [exact H|].
  destruct (order_and_flags session_detour H) as [Htot Hshape].
  destruct (Htot eq_refl) as [res Hres].
  exists res. split; [exact Hres | exact (Hshape res Hres)].
Defined.

Lemma accuracy_bounds_triangle :
  (3 <= length (locations session_triangle))%nat /\
  nonneg_distances session_triangle = true /\
  exists res,
    get_all_points session_triangle = Ok res /\
    (forall ds, engine_distances session_triangle = map Some ds ->
       0 < Qsum ds ->
       Forall (fun p => exists a, accuracy p = Some a /\ 0 < a /\ a <= 100)
              (interior res)) /\
    (length (locations session_triangle) = 3%nat ->
       exists p a, interior res = [p] /\ accuracy p = Some a /\ a == 100).
Proof.
  assert (3 <= length (locations session_triangle))%nat as H by (simpl; lia).
  split; [exact H|]. split; [reflexivity|].
  exact (accuracy_bounds session_triangle H eq_refl).
Defined.

Lemma no_division_by_zero_detour :
  nonneg_distances session_detour = true /\
  exists ds,
    engine_distances session_detour = map Some ds /\
    (forall d, In d ds ->
       0 < d + epsilon /\
       Py.truediv 1 (d + epsilon) = Ok (1 / (d + epsilon))) /\
    (ds <> [] ->
       0 < py_total (inverted_weights ds) /\
       forall v, Py.truediv v (py_total (inverted_weights ds))
                 = Ok (v / py_total (inverted_weights ds))) /\
    exists res, get_all_points session_detour = Ok res.
Proof.
  split; [reflexivity | exact (no_division_by_zero session_detour eq_refl)].
Defined.

(** ** Exceptions of [get_all_points] *)

Lemma comprehension_raise {A B : Type} (f : A -> result B) (l : list A)
  (e : exn) :
  Py.comprehension f l = Raise e -> exists x, In x l /\ f x = Raise e.
Proof.
  induction l as [|x t IH]; simpl; intros H; [discriminate|].
  destruct (f x) as [y|e'] eqn:Hx; cbn [bind] in H.
  - destruct (Py.comprehension f t) as [ys|e''] eqn:Ht; cbn [bind] in H;
      [discriminate|].
    injection H as ->. destruct (IH eq_refl) as (z & Hz & Hfz).
    exists z. split; [now right|assumption].
  - injection H as ->. exists x. split; [now left|assumption].
Qed.

Lemma sum_raise (l : list (option Q)) (e : exn) :
  Py.sum l = Raise e -> e = TypeError /\ In None l.
Proof.
  intros H. destruct (numbers_or_none l) as [[ds ->]|Hnone].
  - rewrite sum_numbers in H. discriminate.
  - unfold Py.sum in H. rewrite sum_from_none in H by assumption.
    injection H as <-. now split.
Qed.

Lemma truediv_raise (a b : Q) (e : exn) :
  Py.truediv a b = Raise e -> e = ZeroDivisionError /\ b == 0.
Proof.
  unfold Py.truediv. destruct (Qeq_bool b 0) eqn:E; [|discriminate].
  intros H. injection H as <-. split; [reflexivity|].
  now apply Qeq_bool_iff.
Qed.

(** Either every number of a list is at least 0, or one of them is
    negative. *)
Lemma nonneg_or_negative (ds : list Q) :
  (forall d, In d ds -> 0 <= d) \/ (exists d, In d ds /\ d < 0).
Proof.
  induction ds as [|x t [IH|(d & Hd & Hneg)]].
  - left. intros ? [].
  - destruct (Qlt_le_dec x 0) as [Hx|Hx].
    + right. exists x. split; [now left|assumption].
    + left. intros d [<-|Hd]; auto.
  - right. exists d. split; [now right|assumption].
Qed.

(** How the accuracy computation can fail: on a null distance, or on a
    division that a negative distance makes vanish. *)
Lemma interior_accuracies_raise (dm : list (option Q)) (e : exn) :
  interior_accuracies dm = Raise e ->
  (e = TypeError /\ In None dm) \/
  (e = ZeroDivisionError /\
   exists ds d, dm = map Some ds /\ In d ds /\ d < 0).
Proof.
  intros H. destruct (numbers_or_none dm) as [[ds ->]|Hnone].
  2:{ left. unfold interior_accuracies, Py.sum in H.
      rewrite sum_from_none in H by assumption.
      injection H as <-. now split. }
  right. unfold interior_accuracies in H.
  rewrite sum_numbers in H. cbn [bind] in H. rewrite length_map in H.
  destruct (Nat.eqb (length ds) 0) eqn:E; [discriminate|].
  assert (ds <> []) as Hne by (intros ->; discriminate).
  destruct (Qeq_bool (py_total ds) 0) eqn:Etot.
  { rewrite truediv_ok in H by now apply length_nonzero. discriminate. }
  assert (e = ZeroDivisionError /\ exists d, In d ds /\ d < 0) as [-> Hneg].
  2:{ split; [reflexivity|]. destruct Hneg as (d & Hd & Hlt).
      now exists ds, d. }
  destruct (nonneg_or_negative ds) as [Hnn|Hneg].
  - exfalso.
    assert (forallb is_nonneg (map Some ds) = true) as Hb.
    { apply forallb_forall. intros x Hx.
      apply in_map_iff in Hx as (d & <- & Hd). simpl.
      apply Qle_bool_iff. auto. }
    destruct (interior_accuracies_total _ Hb) as [am Ham].
    unfold interior_accuracies in Ham.
    rewrite sum_numbers in Ham. cbn [bind] in Ham.
    rewrite length_map, E, Etot in Ham. congruence.
  - split; [|assumption].
    destruct (Py.comprehension invert (map Some ds)) as [inverted|e'] eqn:Hinv;
      cbn [bind] in H.
    + rewrite sum_numbers in H. cbn [bind] in H.
      destruct (Py.comprehension _ inverted) as [accs|e''] eqn:Haccs;
        cbn [bind] in H; [discriminate|].
      injection H as ->.
      apply comprehension_raise in Haccs as (v & _ & Hv).
      unfold share in Hv.
      destruct (Py.truediv v _) as [q|e'] eqn:Hq; cbn [bind] in Hv;
        [discriminate|].
      injection Hv as ->. now apply truediv_raise in Hq as [-> _].
    + injection H as ->.
      apply comprehension_raise in Hinv as (x & Hx & Hfx).
      apply in_map_iff in Hx as (d & <- & _).
      unfold invert in Hfx. cbn [Py.add bind] in Hfx.
      now apply truediv_raise in Hfx as [-> _].
Qed.

Lemma engine_distances_short (db : Session) :
  (length (locations db) < 2)%nat -> engine_distances db = [].
Proof.
  unfold engine_distances.
  destruct (locations db) as [|r0 [|r1 rest]]; simpl; intros H;
    try reflexivity. lia.
Qed.


(** ** What every answer looks like *)

Lemma Scored_numbers (ds : list Q) (am : list (option Q)) :
  Scored ds am -> forall a, In a am -> a <> None.
Proof.
  intros [Hnil | _ _ | _ _ _ _] a Ha.
  - contradiction.
  - apply repeat_spec in Ha. now subst a.
  - apply in_map_iff in Ha as (d & <- & _). discriminate.
Qed.

Lemma zip_interior_fields (mid : list Row) (p : ScoredPoint) :
  forall dm am, In p (zip_interior mid dm am) ->
  In (distance p) dm /\ In (accuracy p) am.
Proof.
  induction mid as [|row t IH]; intros [|d dm] [|a am] H;
    simpl in H; try contradiction.
  destruct H as [<-|H].
  - split; now left.
  - destruct (IH dm am H). split; now right.
Qed.

(** In every answer to a request with at least two rows no distance is
    null, and the accuracy is null exactly at the points flagged first or
    last. *)
Theorem null_only_at_endpoints (db : Session) (res : list ScoredPoint) :
  (2 <= length (locations db))%nat ->
  get_all_points db = Ok res ->
  Forall (fun p => distance p <> None /\
                   (accuracy p = None <->
                    is_first p = true \/ is_last p = true)) res.
Proof.
  intros Hlen Hres.
  destruct (rows_split _ Hlen) as (r0 & mid & rl & Hrows).
  destruct (get_all_points_inv db r0 rl mid res Hrows Hres)
    as (ds & am & Hds & Hlds & Hsc & ->).
  apply Forall_forall. intros p [<-|Hp].
  { split; [discriminate|]. split; [now left|reflexivity]. }
  apply in_app_or in Hp as [Hp|[<-|[]]].
  2:{ split; [discriminate|]. split; [now right|reflexivity]. }
  destruct (zip_interior_flags mid p _ _ Hp) as [Hf Hl].
  destruct (zip_interior_fields mid p _ _ Hp) as [Hd Ha].
  split.
  - apply in_map_iff in Hd as (d & <- & _). discriminate.
  - split.
    + intros Hnone. now apply (Scored_numbers ds am Hsc) in Ha.
    + rewrite Hf, Hl. now intros [|].
Qed.

(** ** Accuracy against distance *)

Lemma Qsum_constant (c : Q) (l : list Q) :
  (forall x, In x l -> x == c) ->
  Qsum l == inject_Z (Z.of_nat (length l)) * c.
Proof.
  induction l as [|x t IH]; intros H.
  - simpl. ring.
  - cbn [Qsum fold_right length]. fold (Qsum t).
    rewrite IH by (intros; apply H; now right).
    rewrite (H x (or_introl eq_refl)).
    rewrite Nat2Z.inj_succ. unfold Z.succ. rewrite inject_Z_plus. ring.
Qed.

(** When the distances are not negative, accuracy is inversely proportional
    to [distance + 1e-6]: the product of the two is the same for every
    interior point of the answer. *)
Theorem accuracy_inversely_proportional (db : Session) :
  nonneg_distances db = true ->
  exists res,
    get_all_points db = Ok res /\
    forall p q dp dq ap aq,
      In p (interior res) -> In q (interior res) ->
      distance p = Some dp -> distance q = Some dq ->
      accuracy p = Some ap -> accuracy q = Some aq ->
      ap * (dp + epsilon) == aq * (dq + epsilon).
Proof.
  intros Hnn. destruct (get_all_points_total db Hnn) as [res Hres].
  exists res. split; [assumption|].
  destruct (le_lt_dec 2 (length (locations db))) as [Hlen|Hlen].
  2:{ rewrite get_all_points_lone in Hres by assumption.
      injection Hres as <-. rewrite interior_short by now rewrite length_map.
      intros p q dp dq ap aq []. }
  destruct (rows_split _ Hlen) as (r0 & mid & rl & Hrows).
  destruct (get_all_points_inv db r0 rl mid res Hrows Hres)
    as (ds & am & Hds & Hlds & Hsc & ->).
  pose proof (nonneg_distances_spec db ds Hnn Hds) as Hpos.
  rewrite interior_split.
  pose proof (Scored_length ds am Hsc) as Hlam.
  intros p q dp dq ap aq Hp Hq Hdp Hdq Hap Haq.
  destruct Hsc as [Hnil | Hne Htot | Hne Htot Hdiv HT].
  - subst ds. destruct mid; [contradiction|discriminate].
  - rewrite py_total_Qsum in Htot.
    pose proof (zip_interior_distance_In p mid ds _ dp Hlds
                  (eq_trans Hlam Hlds) Hp Hdp) as Hip.
    pose proof (zip_interior_distance_In q mid ds _ dq Hlds
                  (eq_trans Hlam Hlds) Hq Hdq) as Hiq.
    pose proof (Qsum_nonneg_zero ds Hpos Htot dp Hip) as Hzp.
    pose proof (Qsum_nonneg_zero ds Hpos Htot dq Hiq) as Hzq.
    destruct (zip_interior_fields mid p _ _ Hp) as [_ Hpa].
    destruct (zip_interior_fields mid q _ _ Hq) as [_ Hqa].
    apply repeat_spec in Hpa, Hqa.
    rewrite Hap in Hpa. rewrite Haq in Hqa.
    injection Hpa as ->. injection Hqa as ->.
    now rewrite Hzp, Hzq.
  - apply zip_interior_In in Hp as (d1 & Hi1 & Hd1 & Ha1).
    apply zip_interior_In in Hq as (d2 & Hi2 & Hd2 & Ha2).
    rewrite Hdp in Hd1. injection Hd1 as <-.
    rewrite Hdq in Hd2. injection Hd2 as <-.
    rewrite Hap in Ha1. injection Ha1 as ->.
    rewrite Haq in Ha2. injection Ha2 as ->.
    unfold weighted_accuracy. field.
    repeat split; auto.
Qed.

(** When all interior points of an answer are at the same distance, each of
    them has the accuracy [100 / |interior|], in the inverse-distance branch
    as in the uniform one. *)
Theorem equal_distances_equal_shares (db : Session) (res : list ScoredPoint)
  (d0 : Q) :
  (3 <= length (locations db))%nat ->
  get_all_points db = Ok res ->
  Forall (fun p => exists d, distance p = Some d /\ d == d0) (interior res) ->
  Forall (fun p => exists a,
            accuracy p = Some a /\
            a == 100 / inject_Z (Z.of_nat (length (interior res))))
         (interior res).
Proof.
  intros Hlen Hres.
  destruct (rows_split (locations db)) as (r0 & mid & rl & Hrows); [lia|].
  destruct (get_all_points_inv db r0 rl mid res Hrows Hres)
    as (ds & am & Hds & Hlds & Hsc & ->).
  pose proof (Scored_length ds am Hsc) as Hlam.
  assert (length (map Some ds) = length mid) as Hm by now rewrite length_map.
  rewrite interior_split.
  rewrite zip_interior_length by congruence.
  intros Hsame.
  assert (forall d, In d ds -> d == d0) as Hall.
  { intros d Hd.
    apply (in_map Some) in Hd.
    rewrite <- (zip_interior_distance mid (map Some ds) am) in Hd
      by congruence.
    apply in_map_iff in Hd as (p & Hpd & Hp).
    rewrite Forall_forall in Hsame.
    destruct (Hsame p Hp) as (d' & Hd' & Heq).
    rewrite Hd' in Hpd. now injection Hpd as <-. }
  apply Forall_forall. intros p Hp.
  destruct Hsc as [Hnil | Hne Htot | Hne Htot Hdiv HT].
  - subst ds. destruct mid; [contradiction|discriminate].
  - destruct (zip_interior_fields mid p _ _ Hp) as [_ Hpa].
    apply repeat_spec in Hpa.
    exists (uniform_accuracy ds). split; [assumption|].
    unfold uniform_accuracy. now rewrite Hlds.
  - apply zip_interior_In in Hp as (d & Hd & _ & Ha).
    exists (weighted_accuracy ds d). split; [assumption|].
    unfold weighted_accuracy.
    assert (py_total (inverted_weights ds)
            == inject_Z (Z.of_nat (length ds)) * (1 / (d0 + epsilon))) as HTeq.
    { rewrite py_total_Qsum.
      rewrite (Qsum_constant (1 / (d0 + epsilon))).
      - unfold inverted_weights. now rewrite length_map.
      - intros v Hv. apply in_map_iff in Hv as (x & <- & Hx).
        now rewrite (Hall x Hx). }
    assert (~ d0 + epsilon == 0) as Hd0.
    { rewrite <- (Hall d Hd). now apply Hdiv. }
    rewrite HTeq, (Hall d Hd), <- Hlds.
    field. split; [now apply length_nonzero | assumption].
Qed.

Lemma null_only_at_endpoints_detour :
  (2 <= length (locations session_detour))%nat /\
  exists res,
    get_all_points session_detour = Ok res /\
    Forall (fun p => distance p <> None /\
                     (accuracy p = None <->
                      is_first p = true \/ is_last p = true)) res.
Proof.
  assert (2 <= length (locations session_detour))%nat as H by (simpl; lia).
  split; [exact H|]. eexists. split; [reflexivity|].
  exact (null_only_at_endpoints session_detour _ H eq_refl).
Defined.

Lemma accuracy_inversely_proportional_detour :
  nonneg_distances session_detour = true /\
  exists res,
    get_all_points session_detour = Ok res /\
    forall p q dp dq ap aq,
      In p (interior res) -> In q (interior res) ->
      distance p = Some dp -> distance q = Some dq ->
      accuracy p = Some ap -> accuracy q = Some aq ->
      ap * (dp + epsilon) == aq * (dq + epsilon).
Proof.
  split; [reflexivity|].
  exact (accuracy_inversely_proportional session_detour eq_refl).
Defined.

(** ** The table under [init_db] and [add_location] *)

Lemma increasing_snoc (l : list Z) (x : Z) :
  increasing l = true -> (forall y, In y l -> (y < x)%Z) ->
  increasing (l ++ [x]) = true.
Proof.
  induction l as [|a t IH]; simpl; intros Hinc Hlt.
  - reflexivity.
  - apply andb_true_iff in Hinc as [Ha Ht].
    apply andb_true_iff. split.
    + rewrite forallb_app, Ha. simpl.
      rewrite andb_true_r. apply Z.ltb_lt. apply Hlt. now left.
    + apply IH; [assumption|]. intros y Hy. apply Hlt. now right.
Qed.

(** A table whose [id]s already grow is its own [ORDER BY id]. *)
Lemma order_by_id_increasing (l : list Location) :
  increasing (map loc_id l) = true -> order_by_id l = l.
Proof.
  induction l as [|x t IH]; simpl; intros H.
  - reflexivity.
  - apply andb_true_iff in H as [Hx Ht].
    change (order_by_id (x :: t)) with (insert_by_id x (order_by_id t)).
    rewrite IH by assumption.
    destruct t as [|y t']; simpl in *.
    + reflexivity.
    + apply andb_true_iff in Hx as [Hxy _]. now rewrite Hxy.
Qed.

Lemma well_formed_spec (st : Database) :
  well_formed st = true ->
  (forall loc, In loc (table st) ->
     loc_point loc <> None /\ (loc_id loc < id_seq st)%Z) /\
  increasing (map loc_id (table st)) = true.
Proof.
  unfold well_formed. intros H. apply andb_true_iff in H as [Hall Hinc].
  split; [|assumption]. intros loc Hloc.
  rewrite forallb_forall in Hall. specialize (Hall loc Hloc).
  apply andb_true_iff in Hall as [Hp Hid]. split.
  - unfold point_is_not_none in Hp. destruct (loc_point loc); congruence.
  - now apply Z.ltb_lt.
Qed.

Lemma add_commit_well_formed (now : Z) (name : string) (g : Geography)
  (st : Database) :
  well_formed st = true ->
  well_formed (fst (add_commit now name (Some g) st)) = true.
Proof.
  intros H. destruct (well_formed_spec st H) as [Hrows Hinc].
  unfold well_formed, add_commit. cbn [fst table id_seq].
  apply andb_true_iff. split.
  - rewrite forallb_app. apply andb_true_iff. split.
    + apply forallb_forall. intros loc Hloc.
      destruct (Hrows loc Hloc) as [Hp Hid].
      apply andb_true_iff. split.
      * unfold point_is_not_none. destruct (loc_point loc); congruence.
      * apply Z.ltb_lt. lia.
    + simpl. rewrite andb_true_r. apply Z.ltb_lt. lia.
  - rewrite map_app. simpl. apply increasing_snoc; [assumption|].
    intros y Hy. apply in_map_iff in Hy as (loc & <- & Hloc).
    now apply Hrows.
Qed.

Lemma init_db_well_formed (now : Z) (st : Database) :
  well_formed (init_db now st) = true.
Proof.
  unfold well_formed, init_db, add_commit. cbn.
  rewrite !andb_true_r. apply Z.ltb_lt. lia.
Qed.

Lemma add_location_table (data : LocationCreate) (now : Z) (st : Database) :
  table (fst (add_location data now st))
  = table st ++ [mkLocation (id_seq st) (lc_username data)
                   (Some (POINT (lc_longitude data) (lc_latitude data)))
                   now].
Proof. reflexivity. Qed.

(** Whatever the database held when the module was loaded, every database
    the program produces has a point in every row, [id]s that grow along
    the table, and a sequence above all of them. *)
Theorem reachable_well_formed (st : Database) :
  reachable st -> well_formed st = true.
Proof.
  induction 1 as [now st|data now st Hreach IH].
  - apply init_db_well_formed.
  - unfold add_location.
    apply (add_commit_well_formed now (lc_username data)
             (POINT (lc_longitude data) (lc_latitude data)) st) in IH.
    destruct (add_commit now (lc_username data) _ st) as [st' loc].
    exact IH.
Qed.

Lemma reachable_head (st : Database) :
  reachable st ->
  exists i now rest,
    table st
    = mkLocation i "init" (Some (POINT init_lng init_lat)) now :: rest.
Proof.
  induction 1 as [now st|data now st Hreach (i & t0 & rest & IH)].
  - exists (id_seq st), now, []. reflexivity.
  - rewrite add_location_table, IH. now eexists i, t0, _.
Qed.

(** ** Reading the table *)

Lemma select_rows_app (l : list Location) (loc : Location) :
  select_rows (l ++ [loc])
  = match select_rows l, select_row loc with
    | Some rows, Some row => Some (rows ++ [row])
    | _, _ => None
    end.
Proof.
  induction l as [|x t IH]; simpl.
  - now destruct (select_row loc).
  - rewrite IH. destruct (select_row x); [|reflexivity].
    destruct (select_rows t); [|reflexivity].
    now destruct (select_row loc).
Qed.

Lemma select_rows_some (l : list Location) :
  (forall loc, In loc l -> loc_point loc <> None) ->
  exists rows, select_rows l = Some rows /\ length rows = length l.
Proof.
  induction l as [|x t IH]; intros H.
  - now exists [].
  - destruct IH as (rows & Hrows & Hlen); [intros; apply H; now right|].
    simpl. rewrite Hrows. unfold select_row.
    destruct (loc_point x) as [g|] eqn:Hg.
    + eexists. split; [reflexivity|]. simpl. now rewrite Hlen.
    + exfalso. apply (H x); [now left|assumption].
Qed.

Lemma fetchall_well_formed (st : Database) :
  well_formed st = true ->
  exists rows,
    fetchall st = Some rows /\ select_rows (table st) = Some rows /\
    length rows = length (table st).
Proof.
  intros H. destruct (well_formed_spec st H) as [Hrows Hinc].
  unfold fetchall. rewrite order_by_id_increasing by assumption.
  destruct (select_rows_some (table st)) as (rows & Hsel & Hlen).
  - intros loc Hloc. now apply Hrows.
  - now exists rows.
Qed.

(** ** [GET /points] after [init_db] and [add_location] *)

(** Right after [init_db], whatever the database held before, [GET /points]
    answers one point: the pin of the user [init] at latitude 13.7563 and
    longitude 100.5018, with no distance, accuracy 100 and both flags. *)
Theorem points_after_init
  (engine : Q -> Q -> LineString -> option (option Q)) (now : Z)
  (st : Database) :
  serve_points engine (init_db now st)
  = Some (Ok [mkPoint (id_seq st) "init" (137563 # 10000) (1005018 # 10000)
                      now None (Some 100) true true]).
Proof. reflexivity. Qed.

(** On every database the program produces, [GET /points] reads the table,
    and the first point of every answer is the pin of the user [init] at
    latitude 13.7563 and longitude 100.5018, flagged first. *)
Theorem first_point_is_init
  (engine : Q -> Q -> LineString -> option (option Q)) (st : Database) :
  reachable st ->
  exists outcome,
    serve_points engine st = Some outcome /\
    forall res, outcome = Ok res ->
      exists p,
        hd_error res = Some p /\ username p = "init"%string /\
        latitude p = init_lat /\ longitude p = init_lng /\
        is_first p = true.
Proof.
  intros Hreach.
  pose proof (reachable_well_formed st Hreach) as Hwf.
  destruct (reachable_head st Hreach) as (i & t0 & rest & Htable).
  destruct (fetchall_well_formed st Hwf) as (rows & Hfetch & Hsel & Hlen).
  unfold serve_points. rewrite Hfetch.
  eexists. split; [reflexivity|]. intros res Hres.
  rewrite Htable in Hsel. simpl in Hsel.
  destruct (select_rows rest) as [rows'|]; [|discriminate].
  injection Hsel as <-.
  set (r0 := mkRow i "init" t0 init_lng init_lat) in *.
  destruct rows' as [|r1 rows''].
  - unfold get_all_points in Hres. simpl in Hres. injection Hres as <-.
    exists (lone_point r0). now repeat split.
  - destruct (exists_last (l := r1 :: rows'')) as (mid & rl & Hmid);
      [discriminate|].
    rewrite Hmid in Hres.
    destruct (get_all_points_inv (mkSession (r0 :: mid ++ [rl]) engine)
                r0 rl mid res eq_refl Hres)
      as (ds & am & _ & _ & _ & ->).
    exists (endpoint r0 true false). now repeat split.
Qed.

(** ** [GET /nearby] after [add_location] *)

(** When the database's [ST_DWithin] finds every point within any radius
    that is not negative of itself, a [GET /nearby] at the coordinates of a
    location just added finds it. *)
Theorem nearby_finds_added
  (ST_DWithin : Geography -> Geography -> Q -> bool)
  (radius : Q) (data : LocationCreate) (now : Z) (st : Database) :
  (forall g r, 0 <= r -> ST_DWithin g g r = true) ->
  0 <= radius ->
  let out := snd (add_location data now st) in
  In (mkNearby (created_id out) (lc_username data) (created_timestamp out))
     (get_nearby_users ST_DWithin (lc_latitude data) (lc_longitude data)
                       radius (fst (add_location data now st))).
Proof.
  intros Hrefl Hr out. unfold get_nearby_users.
  rewrite add_location_table, filter_app, map_app.
  apply in_or_app. right.
  cbn [filter point_is_not_none within_radius loc_point andb].
  rewrite Hrefl by assumption. now left.
Qed.

Lemma planar_within_refl (g : Geography) (r : Q) :
  0 <= r -> planar_within g g r = true.
Proof.
  intros H. unfold planar_within. apply Qle_bool_iff.
  assert (ST_X g - ST_X g == 0) as -> by ring.
  assert (ST_Y g - ST_Y g == 0) as -> by ring.
  simpl. lra.
Qed.

(** ** What the answer depends on *)

(** The outcome of [get_all_points] is a function of the rows and of the
    database's answers for the interior rows: no distance is asked, or
    used, for the first and the last row. *)
Theorem outcome_depends_on_interior_distances (db db' : Session) :
  locations db = locations db' ->
  engine_distances db = engine_distances db' ->
  get_all_points db = get_all_points db'.
Proof.
  intros Hrows Hdist.
  destruct (le_lt_dec 2 (length (locations db))) as [Hlen|Hlen].
  - destruct (rows_split _ Hlen) as (r0 & mid & rl & Hsplit).
    assert (locations db' = r0 :: mid ++ [rl]) as Hsplit' by congruence.
    rewrite (get_all_points_scored db r0 rl mid Hsplit).
    rewrite (get_all_points_scored db' r0 rl mid Hsplit').
    rewrite <- (engine_distances_split db r0 rl mid Hsplit).
    rewrite <- (engine_distances_split db' r0 rl mid Hsplit').
    now rewrite Hdist.
  - rewrite !get_all_points_lone by congruence. now rewrite Hrows.
Qed.

(** ** The further properties on the sample requests *)

Lemma outcome_depends_on_interior_distances_detour :
  locations session_detour = locations session_detour_blind /\
  engine_distances session_detour = engine_distances session_detour_blind /\
  get_all_points session_detour = get_all_points session_detour_blind.
Proof.
  assert (locations session_detour = locations session_detour_blind) as Hr
      by reflexivity.
  assert (engine_distances session_detour
          = engine_distances session_detour_blind) as Hd by reflexivity.
  split; [exact Hr|]. split; [exact Hd|].
  exact (outcome_depends_on_interior_distances _ _ Hr Hd).
Defined.

Lemma equal_distances_equal_shares_parallel :
  (3 <= length (locations session_parallel))%nat /\
  exists res,
    get_all_points session_parallel = Ok res /\
    Forall (fun p => exists d, distance p = Some d /\ d == 2) (interior res) /\
    Forall (fun p => exists a,
              accuracy p = Some a /\
              a == 100 / inject_Z (Z.of_nat (length (interior res))))
           (interior res).
Proof.
  assert (3 <= length (locations session_parallel))%nat as H by (simpl; lia).
  split; [exact H|]. eexists. split; [reflexivity|].
  assert (Forall (fun p => exists d, distance p = Some d /\ d == 2)
            (interior
               [endpoint (sample_row 1 0 0) true false;
                interior_point (sample_row 2 1 2) (Some (Qabs (2 - 0)))
                  (Some (weighted_accuracy [Qabs (2 - 0); Qabs (2 - 0)]
                           (Qabs (2 - 0))));
                interior_point (sample_row 3 2 2) (Some (Qabs (2 - 0)))
                  (Some (weighted_accuracy [Qabs (2 - 0); Qabs (2 - 0)]
                           (Qabs (2 - 0))));
                endpoint (sample_row 4 3 0) false true])) as Hsame.
  { repeat constructor; eexists; (split; [reflexivity|reflexivity]). }
  split; [exact Hsame|].
  exact (equal_distances_equal_shares session_parallel _ 2 H eq_refl Hsame).
Defined.

Lemma reachable_well_formed_started :
  reachable (fst (add_location body_pin 11 database_started)) /\
  well_formed (fst (add_location body_pin 11 database_started)) = true.
Proof.
  assert (reachable (fst (add_location body_pin 11 database_started))) as H
      by (apply reachable_add; apply reachable_init).
  split; [exact H | exact (reachable_well_formed _ H)].
Defined.

Lemma first_point_is_init_started :
  reachable (fst (add_location body_pin 11 database_started)) /\
  exists outcome,
    serve_points latitude_gap (fst (add_location body_pin 11 database_started))
    = Some outcome /\
    forall res, outcome = Ok res ->
      exists p,
        hd_error res = Some p /\ username p = "init"%string /\
        latitude p = init_lat /\ longitude p = init_lng /\
        is_first p = true.
Proof.
  assert (reachable (fst (add_location body_pin 11 database_started))) as H
      by (apply reachable_add; apply reachable_init).
  split; [exact H | exact (first_point_is_init latitude_gap _ H)].
Defined.

Lemma nearby_finds_added_started :
  (forall g r, 0 <= r -> planar_within g g r = true) /\
  0 <= 50 /\
  let out := snd (add_location body_pin 11 database_started) in
  In (mkNearby (created_id out) (lc_username body_pin) (created_timestamp out))
     (get_nearby_users planar_within (lc_latitude body_pin)
                       (lc_longitude body_pin) 50
                       (fst (add_location body_pin 11 database_started))).
Proof.
  assert (0 <= 50) as Hr by (unfold Qle; simpl; lia).
  split; [exact planar_within_refl|]. split; [exact Hr|].
  exact (nearby_finds_added planar_within 50 body_pin 11 database_started
           planar_within_refl Hr).
Defined.

(** ** Rows, answers and points by index *)

Lemma reference_line_split (r0 rl : Row) (mid : list Row) :
  reference_line (r0 :: mid ++ [rl]) = Some (line_wkt r0 rl).
Proof.
  unfold reference_line. cbn [rev]. rewrite rev_app_distr. reflexivity.
Qed.

Lemma reference_line_lone (r0 : Row) :
  reference_line [r0] = Some (line_wkt r0 r0).
Proof. reflexivity. Qed.

Lemma answer_for_query (db : Session) (line : LineString) (row : Row) :
  answer_for db line row = query_distance db line row.
Proof.
  unfold answer_for, query_distance.
  now destruct (ST_Distance db _ _ _) as [[d|]|].
Qed.

(** The distances the function asks for are the answers for the interior
    rows on the line from the first row to the last. *)
Lemma interior_answers_engine (db : Session) :
  interior_answers db = engine_distances db.
Proof.
  unfold interior_answers.
  destruct (le_lt_dec 2 (length (locations db))) as [Hlen|Hlen].
  - destruct (rows_split _ Hlen) as (r0 & mid & rl & Hrows).
    rewrite (engine_distances_split db r0 rl mid Hrows), Hrows.
    rewrite reference_line_split, interior_split.
    apply map_ext. apply answer_for_query.
  - rewrite engine_distances_short by assumption.
    destruct (locations db) as [|r0 [|r1 rest]]; try reflexivity.
    simpl in Hlen. lia.
Qed.

Lemma nonneg_answers (db : Session) :
  forallb is_nonneg (interior_answers db) = true ->
  nonneg_distances db = true.
Proof. unfold nonneg_distances. now rewrite interior_answers_engine. Qed.

Lemma interior_index_split {A : Type} (x y : A) (l : list A) (i : nat) :
  interior_index (length (x :: l ++ [y])) i ->
  exists k, i = S k /\ (k < length l)%nat /\
            nth_error (x :: l ++ [y]) i = nth_error l k.
Proof.
  unfold interior_index. simpl length. rewrite length_app. simpl length.
  intros [H0 Hn]. destruct i as [|k]; [lia|].
  exists k. split; [reflexivity|]. split; [lia|].
  simpl. apply nth_error_app1. lia.
Qed.

Lemma interior_index_inside {A : Type} (x y : A) (l : list A) (k : nat) :
  (k < length l)%nat -> nth_error (x :: l ++ [y]) (S k) = nth_error l k.
Proof. intros H. simpl. now apply nth_error_app1. Qed.

Lemma zip_interior_nth (mid : list Row) :
  forall dm am k row d a,
    nth_error mid k = Some row -> nth_error dm k = Some d ->
    nth_error am k = Some a ->
    nth_error (zip_interior mid dm am) k = Some (interior_point row d a).
Proof.
  induction mid as [|r t IH]; intros [|d0 dm] [|a0 am] [|k] row d a Hr Hd Ha;
    simpl in *; try discriminate.
  - congruence.
  - eauto.
Qed.

Lemma nth_error_present {A : Type} (l : list A) (k : nat) :
  (k < length l)%nat -> exists x, nth_error l k = Some x.
Proof.
  intros H. destruct (nth_error l k) as [x|] eqn:E; [eauto|].
  apply nth_error_None in E. lia.
Qed.

(** In an answer to at least two rows, the point at an interior index is
    built from the row at that index, the database's answer for it, and the
    accuracy at that position. *)
Lemma interior_point_at (db : Session) (r0 rl : Row) (mid : list Row)
  (ds : list Q) (am : list (option Q)) (k : nat) (row : Row) :
  locations db = r0 :: mid ++ [rl] ->
  engine_distances db = map Some ds ->
  length ds = length mid -> length am = length mid ->
  nth_error mid k = Some row ->
  exists d a,
    nth_error ds k = Some d /\ nth_error am k = Some a /\
    answer_for db (line_wkt r0 rl) row = Some d /\
    nth_error (endpoint r0 true false
                 :: zip_interior mid (map Some ds) am
                 ++ [endpoint rl false true]) (S k)
    = Some (interior_point row (Some d) a).
Proof.
  intros Hrows Hds Hlds Hlam Hrow.
  assert (k < length mid)%nat as Hk
      by (apply nth_error_Some; congruence).
  destruct (nth_error_present ds k) as [d Hd]; [lia|].
  destruct (nth_error_present am k) as [a Ha]; [lia|].
  exists d, a. repeat split; try assumption.
  - rewrite answer_for_query.
    rewrite (engine_distances_split db r0 rl mid Hrows) in Hds.
    apply (map_nth_error (query_distance db (line_wkt r0 rl))) in Hrow.
    rewrite Hds in Hrow.
    rewrite (map_nth_error Some k ds Hd) in Hrow. congruence.
  - rewrite interior_index_inside
      by (rewrite zip_interior_length;
          [assumption | now rewrite length_map | assumption]).
    apply zip_interior_nth; try assumption.
    now apply map_nth_error.
Qed.

Lemma answer_shape (db : Session) (r0 rl : Row) (mid : list Row)
  (ds : list Q) (am : list (option Q)) :
  length ds = length mid -> length am = length mid ->
  map row_of (endpoint r0 true false
                :: zip_interior mid (map Some ds) am
                ++ [endpoint rl false true])
  = r0 :: mid ++ [rl].
Proof.
  intros Hd Ha. cbn [map]. rewrite map_app.
  rewrite zip_interior_rows by (auto; now rewrite length_map).
  cbn [map]. now destruct r0, rl.
Qed.

(** ** The claims on distances, by row *)

(** C5.  With at least two rows every answer lists the rows in their order;
    its first and its last point have distance exactly 0, not null, whatever
    the coordinates are; and the point at each interior index carries the
    answer of [ST_Distance] for the row at that index on the line from the
    first row to the last.  The request is answered whenever these answers
    are numbers that are not negative. *)
Theorem endpoint_distances (db : Session) :
  (2 <= length (locations db))%nat ->
  (forallb is_nonneg (interior_answers db) = true ->
   exists res, get_all_points db = Ok res) /\
  (forall res, get_all_points db = Ok res ->
     map row_of res = locations db /\
     (exists p, hd_error res = Some p /\ distance p = Some 0) /\
     (exists p, last_error res = Some p /\ distance p = Some 0) /\
     forall i row line,
       interior_index (length (locations db)) i ->
       nth_error (locations db) i = Some row ->
       reference_line (locations db) = Some line ->
       exists p, nth_error res i = Some p /\ row_of p = row /\
                 distance p = answer_for db line row).
Proof.
  intros Hlen. split.
  { intros H. now apply get_all_points_total, nonneg_answers. }
  intros res Hres.
  destruct (rows_split _ Hlen) as (r0 & mid & rl & Hrows).
  destruct (get_all_points_inv db r0 rl mid res Hrows Hres)
    as (ds & am & Hds & Hlds & Hsc & ->).
  pose proof (Scored_length ds am Hsc) as Hlam.
  rewrite Hrows. split; [|split; [|split]].
  - apply answer_shape; congruence.
  - now exists (endpoint r0 true false).
  - exists (endpoint rl false true). now rewrite last_error_split.
  - intros i row line Hi Hrow Hline.
    rewrite reference_line_split in Hline. injection Hline as <-.
    destruct (interior_index_split r0 rl mid i Hi) as (k & -> & Hk & Hnth).
    rewrite Hnth in Hrow.
    destruct (interior_point_at db r0 rl mid ds am k row Hrows Hds Hlds
                (eq_trans Hlam Hlds) Hrow)
      as (d & a & Hd & Ha & Hans & Hp).
    exists (interior_point row (Some d) a).
    split; [exact Hp|]. split; [now destruct row|]. now rewrite Hans.
Qed.

(** C6.  With at least one interior row, when the answers of [ST_Distance]
    for the interior rows are numbers of total 0, the request is answered,
    the answer lists the rows in their order, the point at every interior
    index has accuracy [100.0 / |interior|] with [|interior| = len - 2], and
    the first and the last point have no accuracy. *)
Theorem uniform_split (db : Session) (ds : list Q) :
  (3 <= length (locations db))%nat ->
  interior_answers db = map Some ds ->
  Qsum ds == 0 ->
  exists res,
    get_all_points db = Ok res /\
    map row_of res = locations db /\
    (forall i, interior_index (length (locations db)) i ->
       exists p, nth_error res i = Some p /\
                 accuracy p
                 = Some (100 / inject_Z
                                 (Z.of_nat (length (locations db) - 2)))) /\
    (exists p, hd_error res = Some p /\ accuracy p = None) /\
    (exists p, last_error res = Some p /\ accuracy p = None).
Proof.
  intros Hlen Hds Hz. rewrite interior_answers_engine in Hds.
  destruct (rows_split (locations db)) as (r0 & mid & rl & Hrows); [lia|].
  pose proof (interior_nonempty _ r0 rl mid Hrows Hlen) as Hmid.
  pose proof (engine_distances_split db r0 rl mid Hrows) as Hsplit.
  assert (length ds = length mid) as Hl.
  { rewrite Hds in Hsplit. apply (f_equal (@length _)) in Hsplit.
    now rewrite !length_map in Hsplit. }
  assert (ds <> []) as Hne
      by (intros ->; destruct mid; [congruence|discriminate]).
  set (am := repeat (Some (uniform_accuracy ds)) (length ds)).
  assert (length am = length mid) as Hlam
      by (unfold am; now rewrite repeat_length).
  exists (endpoint r0 true false :: zip_interior mid (map Some ds) am
            ++ [endpoint rl false true]).
  split; [|split; [|split; [|split]]].
  - rewrite (get_all_points_scored db r0 rl mid Hrows).
    rewrite <- Hsplit, Hds, interior_accuracies_uniform by assumption.
    reflexivity.
  - rewrite Hrows. now apply answer_shape.
  - rewrite Hrows. intros i Hi.
    destruct (interior_index_split r0 rl mid i Hi) as (k & -> & Hk & Hnth).
    destruct (nth_error_present mid k Hk) as [row Hrow].
    destruct (interior_point_at db r0 rl mid ds am k row Hrows Hds Hl
                Hlam Hrow)
      as (d & a & Hd & Ha & _ & Hp).
    exists (interior_point row (Some d) a). split; [exact Hp|].
    apply nth_error_In, repeat_spec in Ha. subst a.
    cbn [accuracy interior_point]. unfold uniform_accuracy.
    do 3 f_equal. simpl length. rewrite length_app. simpl length. lia.
  - now exists (endpoint r0 true false).
  - exists (endpoint rl false true). now rewrite last_error_split.
Qed.


(** ** Rounding *)


(** An answer of [Infinity], which no rational stands for, gives the weight
    0.0 and the total 0.0: the division by the total raises. *)
Example binary64_infinite_distance :
  Binary64.get_all_points Binary64.session_infinite = Raise ZeroDivisionError.
Proof. vm_compute. reflexivity. Qed.

(** ** Exceptions, among numbers *)

(** When every answer of [ST_Distance] is no row, [NULL] or a number,
    [get_all_points] raises nothing but [TypeError] and
    [ZeroDivisionError]: no list index is out of range and no [index]
    search fails; and over exact arithmetic it raises [ZeroDivisionError]
    only when the answer for some interior row is negative. *)
Theorem raises_only_type_or_zero_division (db : Session) (e : exn) :
  get_all_points db = Raise e ->
  e = TypeError \/
  (e = ZeroDivisionError /\
   exists d, In (Some d) (interior_answers db) /\ d < 0).
Proof.
  intros H. rewrite interior_answers_engine.
  destruct (le_lt_dec 2 (length (locations db))) as [Hlen|Hlen].
  - destruct (rows_split _ Hlen) as (r0 & mid & rl & Hrows).
    rewrite (get_all_points_scored db r0 rl mid Hrows) in H.
    rewrite <- (engine_distances_split db r0 rl mid Hrows) in H.
    destruct (interior_accuracies (engine_distances db)) as [am|e'] eqn:Ham;
      cbn [bind] in H; [discriminate|].
    injection H as ->.
    apply interior_accuracies_raise in Ham
      as [[-> _]|(-> & ds & d & Hds & Hd & Hneg)]; [now left|].
    right. split; [reflexivity|]. exists d. split; [|assumption].
    rewrite Hds. now apply in_map.
  - rewrite get_all_points_lone in H by assumption. discriminate.
Qed.

(** ** [add_location], then the two readers *)

(** After [add_location] of coordinates in the range of a geography, on a
    database that is well formed and not empty, [GET /points] reads one row
    more, and in every answer the last point is the one just added: the
    [id] and the time of [add_location]'s answer, the latitude and
    longitude of the request, distance 0, no accuracy, [is_last] only. *)
Theorem points_after_add
  (engine : Q -> Q -> LineString -> option (option Q))
  (data : LocationCreate) (now : Z) (st : Database) :
  in_range (lc_latitude data) (lc_longitude data) = true ->
  well_formed st = true -> table st <> [] ->
  let out := snd (add_location data now st) in
  exists outcome,
    serve_points engine (fst (add_location data now st)) = Some outcome /\
    forall res, outcome = Ok res ->
      length res = S (length (table st)) /\
      exists p,
        last_error res = Some p /\
        id p = created_id out /\ username p = lc_username data /\
        latitude p = lc_latitude data /\ longitude p = lc_longitude data /\
        timestamp p = created_timestamp out /\
        distance p = Some 0 /\ accuracy p = None /\
        is_first p = false /\ is_last p = true.
Proof.
  intros _ Hwf Hne out.
  destruct (fetchall_well_formed st Hwf) as (rows & _ & Hsel & Hlen).
  assert (well_formed (fst (add_location data now st)) = true) as Hwf'
      by (apply (add_commit_well_formed now (lc_username data)
                   (POINT (lc_longitude data) (lc_latitude data)) st Hwf)).
  destruct (well_formed_spec _ Hwf') as [_ Hinc'].
  unfold serve_points, fetchall.
  rewrite order_by_id_increasing by assumption.
  rewrite add_location_table, select_rows_app, Hsel. cbn [select_row loc_point].
  eexists. split; [reflexivity|]. intros res Hres.
  destruct rows as [|r0 rest].
  { destruct (table st); [congruence|discriminate]. }
  cbn [app] in Hres.
  set (rl := mkRow _ _ _ _ _) in Hres.
  destruct (get_all_points_inv (mkSession (r0 :: rest ++ [rl]) engine)
              r0 rl rest res eq_refl Hres)
    as (ds & am & _ & Hlds & Hsc & ->).
  split.
  - simpl length. rewrite length_app. simpl length.
    rewrite zip_interior_length;
      [simpl in Hlen; lia
      |now rewrite length_map
      |now rewrite (Scored_length ds am Hsc)].
  - exists (endpoint rl false true). rewrite last_error_split.
    now repeat split.
Qed.

(** [add_location] changes what a [GET /nearby] request finds by at most the
    new entry: an entry is found afterwards exactly when it was found
    before, or it is the entry of the location just added and the database
    finds that point within the radius.  Nothing is said of the order, which
    the query leaves to the database. *)
Theorem nearby_after_add
  (ST_DWithin : Geography -> Geography -> Q -> bool)
  (latitude longitude radius : Q)
  (data : LocationCreate) (now : Z) (st : Database) (u : Nearby) :
  In u (get_nearby_users ST_DWithin latitude longitude radius
                         (fst (add_location data now st)))
  <-> In u (get_nearby_users ST_DWithin latitude longitude radius st)
      \/ (u = mkNearby (created_id (snd (add_location data now st)))
                       (lc_username data)
                       (created_timestamp (snd (add_location data now st)))
          /\ ST_DWithin (POINT (lc_longitude data) (lc_latitude data))
                        (POINT longitude latitude) radius = true).
Proof.
  unfold get_nearby_users.
  rewrite add_location_table, filter_app, map_app, in_app_iff.
  cbn [filter point_is_not_none within_radius loc_point andb].
  destruct (ST_DWithin _ _ _); simpl; split.
  - intros [H|[<-|[]]]; [now left|right; now split].
  - intros [H|[-> _]]; [now left|right; now left].
  - intros [H|[]]. now left.
  - intros [H|[_ H]]; [now left|discriminate].
Qed.

(** ** The properties by row on the sample requests *)

Lemma endpoint_distances_spread :
  (2 <= length (locations session_spread))%nat /\
  exists res,
    get_all_points session_spread = Ok res /\
    map row_of res = locations session_spread /\
    (exists p, hd_error res = Some p /\ distance p = Some 0) /\
    (exists p, last_error res = Some p /\ distance p = Some 0) /\
    forall i row line,
      interior_index (length (locations session_spread)) i ->
      nth_error (locations session_spread) i = Some row ->
      reference_line (locations session_spread) = Some line ->
      exists p, nth_error res i = Some p /\ row_of p = row /\
                distance p = answer_for session_spread line row.
Proof.
  assert (2 <= length (locations session_spread))%nat as H by (simpl; lia).
  split; [exact H|].
  destruct (endpoint_distances session_spread H) as [Htot Hshape].
  destruct (Htot eq_refl) as [res Hres].
  exists res. split; [exact Hres | exact (Hshape res Hres)].
Defined.

Lemma uniform_split_straight :
  (3 <= length (locations session_straight))%nat /\
  interior_answers session_straight = map Some [0; 0] /\
  Qsum [0; 0] == 0 /\
  exists res,
    get_all_points session_straight = Ok res /\
    map row_of res = locations session_straight /\
    (forall i, interior_index (length (locations session_straight)) i ->
       exists p, nth_error res i = Some p /\
                 accuracy p
                 = Some (100 / inject_Z
                                 (Z.of_nat
                                    (length (locations session_straight)
                                     - 2)))) /\
    (exists p, hd_error res = Some p /\ accuracy p = None) /\
    (exists p, last_error res = Some p /\ accuracy p = None).
Proof.
  assert (3 <= length (locations session_straight))%nat as H by (simpl; lia).
  assert (interior_answers session_straight = map Some [0; 0]) as Hds
      by reflexivity.
  assert (Qsum [0; 0] == 0) as Hz by reflexivity.
  split; [exact H|]. split; [exact Hds|]. split; [exact Hz|].
  exact (uniform_split session_straight [0; 0] H Hds Hz).
Defined.


Lemma raises_only_type_or_zero_division_negative :
  get_all_points session_negative = Raise ZeroDivisionError /\
  (ZeroDivisionError = TypeError \/
   (ZeroDivisionError = ZeroDivisionError /\
    exists d, In (Some d) (interior_answers session_negative) /\ d < 0)).
Proof.
  split; [reflexivity|].
  exact (raises_only_type_or_zero_division session_negative
           ZeroDivisionError eq_refl).
Defined.

Lemma points_after_add_started :
  in_range (lc_latitude body_pin) (lc_longitude body_pin) = true /\
  well_formed database_started = true /\ table database_started <> [] /\
  let out := snd (add_location body_pin 11 database_started) in
  exists outcome,
    serve_points latitude_gap (fst (add_location body_pin 11 database_started))
    = Some outcome /\
    forall res, outcome = Ok res ->
      length res = S (length (table database_started)) /\
      exists p,
        last_error res = Some p /\
        id p = created_id out /\ username p = lc_username body_pin /\
        latitude p = lc_latitude body_pin /\
        longitude p = lc_longitude body_pin /\
        timestamp p = created_timestamp out /\
        distance p = Some 0 /\ accuracy p = None /\
        is_first p = false /\ is_last p = true.
Proof.
  assert (table database_started <> []) as Hne by discriminate.
  split; [reflexivity|]. split; [reflexivity|]. split; [exact Hne|].
  exact (points_after_add latitude_gap body_pin 11 database_started
           eq_refl eq_refl Hne).
Defined.
